(** * Shortest routes over a road map: the loaders, the engine, the
      path reconstructor and the route renderer of [src/main.py].

    Conventions of the embedding.
    - Place identifiers (Python [int]) are [Z]; names and road descriptions
      are [string]; Python dictionaries are [gmap]s (their equality ignores
      insertion order, as Python's does).
    - Distances (Python [float]) are exact rationals [Q]; comparisons are
      the rational ones.  Rounding, infinities and NaN are outside the
      model.
    - The built-ins [int()] and [float()] are parameters of the loaders;
      a decimal instance is given for running them.
    - [heapq] is modelled by its contract: [heappop] removes and returns a
      least entry for the order of Python tuples.
    - The two [while] loops take a fuel argument; [None] means the fuel
      ran out, and the theorems give fuel for which it does not. *)

From Stdlib Require Import ZArith QArith Lqa String Ascii.
From stdpp Require Import gmap strings list fin_maps.

Local Open Scope Q_scope.

(** ** Rational comparisons as booleans *)

Definition Qltb (x y : Q) : bool := negb (Qle_bool y x).

#[global] Instance Q_eq_dec : EqDecision Q.
Proof. solve_decision. Defined.

(** ** Text primitives: [str.strip] and [str.split(sep, maxsplit)] *)

Module Text.

Definition isspace (c : ascii) : bool :=
  let n := nat_of_ascii c in
  ((9 <=? n)%nat && (n <=? 13)%nat) || ((28 <=? n)%nat && (n <=? 32)%nat).

Fixpoint lstrip (s : string) : string :=
  match s with
  | EmptyString => EmptyString
  | String c s' => if isspace c then lstrip s' else s
  end.

Definition rstrip (s : string) : string :=
  String.rev (lstrip (String.rev s)).

Definition strip (s : string) : string := rstrip (lstrip s).

(** [cut sep s] is [Some (before, after)] around the first [sep] of [s]. *)
Fixpoint cut (sep : ascii) (s : string) : option (string * string) :=
  match s with
  | EmptyString => None
  | String c s' =>
      if decide (c = sep) then Some (EmptyString, s')
      else match cut sep s' with
           | Some (before, after) => Some (String c before, after)
           | None => None
           end
  end.

Fixpoint split (sep : ascii) (maxsplit : nat) (s : string) : list string :=
  match maxsplit with
  | O => [s]
  | S n =>
      match cut sep s with
      | Some (before, after) => before :: split sep n after
      | None => [s]
      end
  end.

Definition is_empty (s : string) : bool :=
  match s with EmptyString => true | _ => false end.

End Text.

(** ** Exceptions raised by the loaders *)

Inductive error : Type := FileNotFoundError | ValueError.

Inductive result (A : Type) : Type :=
| Ok (a : A)
| Raise (e : error).
Arguments Ok {A} a.
Arguments Raise {A} e.

(** ** Dictionary operations *)

(** [d.setdefault(k, v)]: the value bound to [k], binding it to [v] first
    when [k] is absent; the dictionary after the call is returned too. *)
Definition setdefault `{Countable K} {V} (k : K) (v : V) (d : gmap K V)
  : V * gmap K V :=
  match d !! k with
  | Some x => (x, d)
  | None => (v, <[k := v]> d)
  end.

(** [d.get(k, v)]: a read; the dictionary is not changed. *)
Definition dict_get `{Countable K} {V} (d : gmap K V) (k : K) (v : V) : V :=
  match d !! k with
  | Some x => x
  | None => v
  end.

(** ** The data model *)

Definition Edge : Type := Z * Q * string.
Abbreviation AdjacencyList := (gmap Z (list Edge)).

Definition edge_to (e : Edge) : Z := e.1.1.
Definition edge_miles (e : Edge) : Q := e.1.2.
Definition edge_description (e : Edge) : string := e.2.

(** A data source: [None] when the file does not exist, else its lines. *)
Definition source_file : Type := option (list string).

Definition comma : ascii := ","%char.

(** ** The loaders *)

Section Loaders.

Variable py_int : string -> option Z.
Variable py_float : string -> option Q.

(** The parsing part of the body of the loop of [load_places]: [Ok None]
    for a blank line, [Ok (Some (place_id, place_name))] for a record. *)
Definition parse_place_line (raw_line : string) : result (option (Z * string)) :=
  let stripped := Text.strip raw_line in
  if Text.is_empty stripped then Ok None
  else
    match Text.split comma 1 stripped with
    | [place_id_str; place_name] =>
        let place_id_str := Text.strip place_id_str in
        let place_name := Text.strip place_name in
        if Text.is_empty place_id_str then Raise ValueError
        else
          match py_int place_id_str with
          | None => Raise ValueError
          | Some place_id =>
              let place_name :=
                if Text.is_empty place_name then "null"%string else place_name in
              Ok (Some (place_id, place_name))
          end
    | _ => Raise ValueError
    end.

(** The two insertions at the end of the body. *)
Definition record_place (place_id : Z) (place_name : string)
    (name_to_id : gmap string Z) (id_to_name : gmap Z string)
  : gmap string Z * gmap Z string :=
  let id_to_name :=
    if decide (is_Some (id_to_name !! place_id)) then id_to_name
    else <[place_id := place_name]> id_to_name in
  let name_to_id := (setdefault place_name place_id name_to_id).2 in
  (name_to_id, id_to_name).

Fixpoint load_places_loop (lines : list string)
    (name_to_id : gmap string Z) (id_to_name : gmap Z string)
  : result (gmap string Z * gmap Z string) :=
  match lines with
  | [] => Ok (name_to_id, id_to_name)
  | raw_line :: rest =>
      match parse_place_line raw_line with
      | Raise e => Raise e
      | Ok None => load_places_loop rest name_to_id id_to_name
      | Ok (Some (place_id, place_name)) =>
          let '(name_to_id, id_to_name) :=
            record_place place_id place_name name_to_id id_to_name in
          load_places_loop rest name_to_id id_to_name
      end
  end.

Definition load_places (place_file : source_file)
  : result (gmap string Z * gmap Z string) :=
  match place_file with
  | None => Raise FileNotFoundError
  | Some lines => load_places_loop lines ∅ ∅
  end.

(** A raw road record: (left_id, right_id, miles, description). *)
Definition Road : Type := Z * Z * Q * string.

Definition parse_road_line (raw_line : string) : result (option Road) :=
  let stripped := Text.strip raw_line in
  if Text.is_empty stripped then Ok None
  else
    match Text.split comma 3 stripped with
    | [p0; p1; p2; p3] =>
        let left_id_str := Text.strip p0 in
        let right_id_str := Text.strip p1 in
        let miles_str := Text.strip p2 in
        let description := Text.strip p3 in
        match py_int left_id_str with
        | None => Raise ValueError
        | Some left_id =>
            match py_int right_id_str with
            | None => Raise ValueError
            | Some right_id =>
                match py_float miles_str with
                | None => Raise ValueError
                | Some miles =>
                    if Qltb miles 0 then Raise ValueError
                    else Ok (Some (left_id, right_id, miles, description))
                end
            end
        end
    | _ => Raise ValueError
    end.

(** [graph.setdefault(k, []).append(e)] *)
Definition append_edge (k : Z) (e : Edge) (graph : AdjacencyList) : AdjacencyList :=
  let '(neighbors, graph) := setdefault k [] graph in
  <[k := neighbors ++ [e]]> graph.

Definition record_road (r : Road) (graph : AdjacencyList) : AdjacencyList :=
  let '(left_id, right_id, miles, description) := r in
  let graph := append_edge left_id (right_id, miles, description) graph in
  append_edge right_id (left_id, miles, description) graph.

Fixpoint load_graph_loop (lines : list string) (graph : AdjacencyList)
  : result AdjacencyList :=
  match lines with
  | [] => Ok graph
  | raw_line :: rest =>
      match parse_road_line raw_line with
      | Raise e => Raise e
      | Ok None => load_graph_loop rest graph
      | Ok (Some r) => load_graph_loop rest (record_road r graph)
      end
  end.

Definition load_graph (road_file : source_file) : result AdjacencyList :=
  match road_file with
  | None => Raise FileNotFoundError
  | Some lines => load_graph_loop lines ∅
  end.

(** The records of a places source, in the order of its lines. *)
Fixpoint parsed_places (lines : list string) : result (list (Z * string)) :=
  match lines with
  | [] => Ok []
  | raw_line :: rest =>
      match parse_place_line raw_line with
      | Raise e => Raise e
      | Ok None => parsed_places rest
      | Ok (Some r) =>
          match parsed_places rest with
          | Ok records => Ok (r :: records)
          | Raise e => Raise e
          end
      end
  end.

(** The records of a roads source, in the order of its lines. *)
Fixpoint parsed_roads (lines : list string) : result (list Road) :=
  match lines with
  | [] => Ok []
  | raw_line :: rest =>
      match parse_road_line raw_line with
      | Raise e => Raise e
      | Ok None => parsed_roads rest
      | Ok (Some r) =>
          match parsed_roads rest with
          | Ok records => Ok (r :: records)
          | Raise e => Raise e
          end
      end
  end.

(** The first field of a line of a roads source, as [load_graph] reads it;
    [is_blank] lines are skipped. *)
Definition first_field (raw_line : string) : string :=
  Text.strip (hd EmptyString (Text.split comma 3 (Text.strip raw_line))).

Definition is_blank (raw_line : string) : bool :=
  Text.is_empty (Text.strip raw_line).

End Loaders.

(** ** A decimal instance of [int()] and [float()]

    The fragment [sign? digit+] of [int()] and [sign? digit+ (. digit+)?]
    of [float()], enough to run the loaders on sample files. *)

Module Decimal.

Definition digit (c : ascii) : option Z :=
  let n := nat_of_ascii c in
  if ((48 <=? n)%nat && (n <=? 57)%nat) then Some (Z.of_nat (n - 48)) else None.

Fixpoint digits (acc : Z) (s : string) : option Z :=
  match s with
  | EmptyString => Some acc
  | String c s' =>
      match digit c with
      | Some d => digits (10 * acc + d) s'
      | None => None
      end
  end.

Definition natural (s : string) : option Z :=
  if Text.is_empty s then None else digits 0 s.

Definition signed {A} (neg : A -> A) (body : string -> option A) (s : string)
  : option A :=
  match s with
  | String "-"%char s' => neg <$> body s'
  | String "+"%char s' => body s'
  | _ => body s
  end.

Definition int : string -> option Z := signed Z.opp natural.

Definition unsigned_float (s : string) : option Q :=
  match Text.cut "."%char s with
  | None => inject_Z <$> natural s
  | Some (whole, frac) =>
      match natural whole, natural frac with
      | Some w, Some f =>
          let scale := Pos.pow 10 (Pos.of_nat (String.length frac)) in
          Some (Qmake (w * Zpos scale + f) scale)
      | _, _ => None
      end
  end.

Definition float : string -> option Q := signed Qopp unsigned_float.

End Decimal.

(** ** The priority queue

    [heapq] keeps a binary heap in a list; what the engine observes of it
    is that [heappop] removes and returns a least entry.  Entries are
    Python tuples [(distance, node)], compared component by component. *)

Definition HeapEntry : Type := Q * Z.

Definition entry_ltb (a b : HeapEntry) : bool :=
  Qltb a.1 b.1 || (Qeq_bool a.1 b.1 && (a.2 <? b.2)%Z).

Fixpoint heap_least (x : HeapEntry) (h : list HeapEntry) : HeapEntry :=
  match h with
  | [] => x
  | y :: h' => heap_least (if entry_ltb y x then y else x) h'
  end.

Fixpoint remove_first (x : HeapEntry) (h : list HeapEntry) : list HeapEntry :=
  match h with
  | [] => []
  | y :: h' => if decide (y = x) then h' else y :: remove_first x h'
  end.

Definition heappush (h : list HeapEntry) (e : HeapEntry) : list HeapEntry :=
  e :: h.

Definition heappop (h : list HeapEntry) : option (HeapEntry * list HeapEntry) :=
  match h with
  | [] => None
  | x :: h' => let m := heap_least x h' in Some (m, remove_first m h)
  end.

(** ** The shortest-path engine *)

(** [x > d.get(k, inf)] and [x < d.get(k, inf)], with [None] for an
    absent key, that is for infinity. *)
Definition gt_inf (x : Q) (o : option Q) : bool :=
  match o with Some y => Qltb y x | None => false end.

Definition lt_inf (x : Q) (o : option Q) : bool :=
  match o with Some y => Qltb x y | None => true end.

(** The locals of [dijkstra]. *)
Record Search : Type := MkSearch {
  dist : gmap Z Q;
  prev : gmap Z Z;
  heap : list HeapEntry
}.

(** The body of the [for] loop over the neighbours of [u]. *)
Definition relax (u : Z) (current_dist : Q) (st : Search) (e : Edge) : Search :=
  let '(v, weight, _description) := e in
  let new_dist := current_dist + weight in
  if lt_inf new_dist (dist st !! v) then
    {| dist := <[v := new_dist]> (dist st);
       prev := <[v := u]> (prev st);
       heap := heappush (heap st) (new_dist, v) |}
  else st.

(** The [while heap:] loop.  The graph is the caller's object; it is
    threaded through the loop and returned as the loop leaves it. *)
Fixpoint dijkstra_loop (fuel : nat) (graph : AdjacencyList) (target : Z)
    (st : Search) : option (AdjacencyList * Search) :=
  match fuel with
  | O => None
  | S fuel' =>
      match heappop (heap st) with
      | None => Some (graph, st)
      | Some ((current_dist, u), heap') =>
          let st := {| dist := dist st; prev := prev st; heap := heap' |} in
          if gt_inf current_dist (dist st !! u) then
            dijkstra_loop fuel' graph target st
          else if decide (u = target) then Some (graph, st)
          else
            dijkstra_loop fuel' graph target
              (foldl (relax u current_dist) st (dict_get graph u []))
      end
  end.

Definition initial (source : Z) : Search :=
  {| dist := {[source := 0]}; prev := ∅; heap := [(0, source)] |}.

(** [dijkstra fuel graph source target]: the graph after the call, the
    distance map and the predecessor map. *)
Definition dijkstra (fuel : nat) (graph : AdjacencyList) (source target : Z)
  : option (AdjacencyList * (gmap Z Q * gmap Z Z)) :=
  match dijkstra_loop fuel graph target (initial source) with
  | Some (graph', st) => Some (graph', (dist st, prev st))
  | None => None
  end.

(** ** The path reconstructor *)

(** The [while current != source:] loop; the outer [option] is the fuel. *)
Fixpoint walk_back (fuel : nat) (prev : gmap Z Z) (source current : Z)
    (path : list Z) : option (option (list Z)) :=
  match fuel with
  | O => None
  | S fuel' =>
      if decide (current = source) then Some (Some (reverse path))
      else
        match prev !! current with
        | None => Some None
        | Some current' => walk_back fuel' prev source current' (path ++ [current'])
        end
  end.

Definition reconstruct_path (fuel : nat) (prev : gmap Z Z) (source target : Z)
  : option (option (list Z)) :=
  if decide (source = target) then Some (Some [source])
  else if decide (is_Some (prev !! target)) then
    walk_back fuel prev source target [target]
  else Some None.

(** ** Edge lookup and the route renderer *)

Fixpoint find_edge_loop (neighbors : list Edge) (to_id : Z) : option (Q * string) :=
  match neighbors with
  | [] => None
  | (neighbor_id, miles, description) :: rest =>
      if decide (neighbor_id = to_id) then Some (miles, description)
      else find_edge_loop rest to_id
  end.

Definition find_edge (graph : AdjacencyList) (from_id to_id : Z)
  : option (Q * string) :=
  find_edge_loop (dict_get graph from_id []) to_id.

(** What the rendering loop of [main] prints. *)
Inductive Printed : Type :=
| Warning (from_id to_id : Z)
| StepLine (step_number : nat) (from_id : Z) (from_name : string)
    (to_id : Z) (to_name : string) (description : string) (miles : Q).

(** The loop [for index in range(len(path) - 1)] of [main]; [None] stands
    for an [IndexError] of [path[index]]. *)
Fixpoint render_loop (graph : AdjacencyList) (id_to_name : gmap Z string)
    (path : list Z) (indices : list nat) (total_distance : Q)
    (out : list Printed) : option (Q * list Printed) :=
  match indices with
  | [] => Some (total_distance, out)
  | index :: rest =>
      match path !! index, path !! (index + 1)%nat with
      | Some from_id, Some to_id =>
          match find_edge graph from_id to_id with
          | None =>
              render_loop graph id_to_name path rest total_distance
                (out ++ [Warning from_id to_id])
          | Some (miles, description) =>
              let total_distance := total_distance + miles in
              let from_name := dict_get id_to_name from_id "null"%string in
              let to_name := dict_get id_to_name to_id "null"%string in
              let step_number := (index + 1)%nat in
              render_loop graph id_to_name path rest total_distance
                (out ++ [StepLine step_number from_id from_name
                           to_id to_name description miles])
          end
      | _, _ => None
      end
  end.

Definition render (graph : AdjacencyList) (id_to_name : gmap Z string)
    (path : list Z) : option (Q * list Printed) :=
  render_loop graph id_to_name path (seq 0 (length path - 1)) 0 [].

(** ** Routes in a graph *)

Definition neighbors (g : AdjacencyList) (u : Z) : list Edge := dict_get g u [].

(** [is_route g u steps v]: [steps] are adjacency entries taken one after
    the other from [u], ending in [v]. *)
Fixpoint is_route (g : AdjacencyList) (u : Z) (steps : list Edge) (v : Z) : Prop :=
  match steps with
  | [] => u = v
  | e :: rest => e ∈ neighbors g u ∧ is_route g (edge_to e) rest v
  end.

(** The sum of the edge weights of a route. *)
Definition route_cost (steps : list Edge) : Q :=
  foldr (λ e c, edge_miles e + c) 0 steps.

Definition nonneg_weights (g : AdjacencyList) : Prop :=
  ∀ u e, e ∈ neighbors g u → 0 <= edge_miles e.


(** One road leads from [u] to [v]. *)
Definition linked (g : AdjacencyList) (u v : Z) : Prop :=
  ∃ e, e ∈ neighbors g u ∧ edge_to e = v.

(** [u] and [v] lie in the same connected component: roads link them,
    taken in either direction. *)
Definition connected (g : AdjacencyList) : relation Z := rtsc (linked g).

(** The number of adjacency entries of the nodes outside [settled]. *)
Definition pending_work (g : AdjacencyList) (settled : list Z) : nat :=
  sum_list_with
    (λ kl : Z * list Edge, if decide (kl.1 ∈ settled) then 0%nat else length kl.2)
    (map_to_list g).

(** Fuel that suffices for [dijkstra] on a graph of non-negative weights. *)
Definition enough_fuel (g : AdjacencyList) : nat := S (S (pending_work g [])).

(** ** What the loaders' and the renderer's results are compared with *)

(** The first record of [records] whose key is [k]. *)
Fixpoint first_with {K V} `{EqDecision K} (k : K) (records : list (K * V))
  : option V :=
  match records with
  | [] => None
  | (k', v) :: rest => if decide (k' = k) then Some v else first_with k rest
  end.

(** How many times [x] occurs in [l]. *)
Definition occurrences {A} `{EqDecision A} (x : A) (l : list A) : nat :=
  length (filter (x =.) l).

(** The first entry of [u]'s neighbour list that leads to [v]. *)
Definition first_entry_to (g : AdjacencyList) (u v : Z) : option Edge :=
  List.find (λ e, bool_decide (edge_to e = v)) (neighbors g u).

(** The segment distances of the steps of [path] that have an entry. *)
Fixpoint matched_segments (g : AdjacencyList) (path : list Z) : list Q :=
  match path with
  | [] => []
  | a :: rest =>
      match rest with
      | [] => []
      | b :: _ =>
          match first_entry_to g a b with
          | Some e => edge_miles e :: matched_segments g rest
          | None => matched_segments g rest
          end
      end
  end.

Definition is_step_line (p : Printed) : bool :=
  match p with StepLine _ _ _ _ _ _ _ => true | Warning _ _ => false end.

(** The loaders' insertions, folded over the records of a source. *)
Definition record_places (acc : gmap string Z * gmap Z string)
    (records : list (Z * string)) : gmap string Z * gmap Z string :=
  foldl (λ acc r, record_place r.1 r.2 acc.1 acc.2) acc records.

Definition record_roads (g : AdjacencyList) (roads : list Road) : AdjacencyList :=
  foldl (λ g r, record_road r g) g roads.

Definition sum_miles (segments : list Q) : Q := foldl Qplus 0 segments.

(** [A] is closed under the roads of [g], in both directions. *)
Definition closed_under_roads (g : AdjacencyList) (A : list Z) : bool :=
  forallb
    (λ kl : Z * list Edge,
       forallb (λ e, Bool.eqb (bool_decide (kl.1 ∈ A))
                       (bool_decide (edge_to e ∈ A))) kl.2)
    (map_to_list g).

(** [follow prev n v]: the node reached from [v] after [n] links. *)
Fixpoint follow (prev : gmap Z Z) (n : nat) (v : Z) : option Z :=
  match n with
  | O => Some v
  | S n' => match prev !! v with Some u => follow prev n' u | None => None end
  end.

(** The order in which the engine settles nodes ranks the predecessor
    links: the predecessor of a settled node was settled before it. *)
Definition ranked (prev : gmap Z Z) (settled : list Z) : Prop :=
  ∀ v u, prev !! v = Some u →
    u ∈ settled ∧ ∀ l1 l2, settled = l1 ++ v :: l2 → u ∈ l2.

(** ** The invariant of the search

    Stated for a graph [g] and a source [s]. *)

Section Invariant.

Variable g : AdjacencyList.
Variable s : Z.

(** The edge [e] out of [x] has been relaxed. *)
Definition relaxed (st : Search) (x : Z) (e : Edge) : Prop :=
  ∃ dx dv, dist st !! x = Some dx ∧ dist st !! edge_to e = Some dv ∧
           dv <= dx + edge_miles e.

(** [settled] lists the nodes whose neighbours have been scanned, the
    latest first; [P x e] says which edges are known to be relaxed. *)
Record Inv (settled : list Z) (P : Z → Edge → Prop) (st : Search) : Prop := {
  inv_source : dist st !! s = Some 0;
  inv_route : ∀ v d, dist st !! v = Some d →
    ∃ p, is_route g s p v ∧ route_cost p == d;
  inv_heap : ∀ d v, (d, v) ∈ heap st → ∃ d', dist st !! v = Some d' ∧ d' <= d;
  inv_pending : ∀ v d, dist st !! v = Some d → v ∉ settled → (d, v) ∈ heap st;
  inv_settled : ∀ x, x ∈ settled → is_Some (dist st !! x);
  inv_relaxed : ∀ x e, P x e → relaxed st x e;
  inv_order : ∀ x dx d v, x ∈ settled → dist st !! x = Some dx →
    (d, v) ∈ heap st → dx <= d;
  inv_prev : ∀ v u, prev st !! v = Some u →
    is_Some (dist st !! v) ∧ v ≠ s ∧ u ∈ settled ∧
    ∀ l1 l2, settled = l1 ++ v :: l2 → u ∈ l2
}.

Definition scanned (settled : list Z) (x : Z) (e : Edge) : Prop :=
  x ∈ settled ∧ e ∈ neighbors g x.

(** The invariant inside the [for] loop over the neighbours of [u], popped
    with key [d], after the entries [done]. *)
Record Mid (u : Z) (d : Q) (settled : list Z) (done : list Edge) (st : Search)
  : Prop := {
  mid_inv : Inv (u :: settled)
              (λ x e, scanned settled x e ∨ (x = u ∧ e ∈ done)) st;
  mid_below : ∀ x, x ∈ u :: settled → ∃ dx, dist st !! x = Some dx ∧ dx <= d;
  mid_current : ∃ du, dist st !! u = Some du ∧ d <= du;
  mid_nonneg : 0 <= d
}.

Definition with_heap (st : Search) (h : list HeapEntry) : Search :=
  {| dist := dist st; prev := prev st; heap := h |}.

(** What holds of the state the loop returns, for the target [t]. *)
Record Post (t : Z) (st : Search) : Prop := {
  post_source : dist st !! s = Some 0;
  post_route : ∀ v d, dist st !! v = Some d →
    ∃ p, is_route g s p v ∧ route_cost p == d;
  post_least : ∀ d p, dist st !! t = Some d → is_route g s p t →
    d <= route_cost p;
  post_prev : ∃ settled, ∀ v u, prev st !! v = Some u →
    is_Some (dist st !! v) ∧ v ≠ s ∧ u ∈ settled ∧
    ∀ l1 l2, settled = l1 ++ v :: l2 → u ∈ l2
}.

(** What holds of the search on any graph, whatever the weights: a node
    with a distance is reached from the source by roads, and the heap and the
    predecessor map mention only such nodes. *)
Record Reach (st : Search) : Prop := {
  reach_dist : ∀ v d, dist st !! v = Some d → rtc (linked g) s v;
  reach_heap : ∀ d v, (d, v) ∈ heap st → is_Some (dist st !! v);
  reach_prev : ∀ v u, prev st !! v = Some u → is_Some (dist st !! v)
}.

End Invariant.

Arguments inv_source {g s settled P st} _.
Arguments inv_route {g s settled P st} _.
Arguments inv_heap {g s settled P st} _.
Arguments inv_pending {g s settled P st} _.
Arguments inv_settled {g s settled P st} _.
Arguments inv_relaxed {g s settled P st} _.
Arguments inv_order {g s settled P st} _.
Arguments inv_prev {g s settled P st} _.
Arguments post_source {g s t st} _.
Arguments post_route {g s t st} _.
Arguments post_least {g s t st} _.
Arguments post_prev {g s t st} _.

(** ** What the search leaves behind

    Stated for a graph [g] and a source [s]. *)

Section Outcome.

Variable g : AdjacencyList.
Variable s : Z.

(** The predecessor links fit the distances: every node with a distance,
    but the source, has a predecessor, and a link [u] to [v] comes with an
    adjacency entry of [u] that leads to [v] and accounts for the distance
    of [v]. *)
Record Links (st : Search) : Prop := {
  links_total : ∀ v d, dist st !! v = Some d → v ≠ s → is_Some (prev st !! v);
  links_tight : ∀ v u, prev st !! v = Some u →
    ∃ du dv e, dist st !! u = Some du ∧ dist st !! v = Some dv ∧
      e ∈ neighbors g u ∧ edge_to e = v ∧ dv == du + edge_miles e
}.

(** The loop has ended with the maps of [st']: the heap ran empty, or the
    target [t] was popped with its current distance. *)
Definition Finished (t : Z) (st' : Search) : Prop :=
  ∃ settled st0,
    Inv g s settled (scanned g settled) st0 ∧ Links st0 ∧
    dist st' = dist st0 ∧ prev st' = prev st0 ∧
    (heap st0 = [] ∨
     ∃ d h', heappop (heap st0) = Some ((d, t), h') ∧
             gt_inf d (dist st0 !! t) = false).

(** What the maps of a finished search satisfy, [settled] being the nodes
    whose neighbours were scanned. *)
Record Final (t : Z) (settled : list Z) (st : Search) : Prop := {
  fin_source : dist st !! s = Some 0;
  fin_route : ∀ v d, dist st !! v = Some d →
    ∃ p, is_route g s p v ∧ route_cost p == d;
  fin_prev : ∀ v u, prev st !! v = Some u →
    is_Some (dist st !! v) ∧ v ≠ s ∧ u ∈ settled ∧
    ∀ l1 l2, settled = l1 ++ v :: l2 → u ∈ l2;
  fin_least : ∀ x dx p, x ∈ settled → dist st !! x = Some dx →
    is_route g s p x → dx <= route_cost p;
  fin_relaxed : ∀ x e, x ∈ settled → e ∈ neighbors g x → relaxed st x e;
  fin_links : Links st;
  fin_exit :
    (∀ v p, is_route g s p v → ∃ d, dist st !! v = Some d ∧ d <= route_cost p) ∨
    (∃ d, dist st !! t = Some d ∧ ∀ p, is_route g s p t → d <= route_cost p)
}.

End Outcome.

Arguments links_total {g s st} _.
Arguments links_tight {g s st} _.
Arguments fin_source {g s t settled st} _.
Arguments fin_route {g s t settled st} _.
Arguments fin_prev {g s t settled st} _.
Arguments fin_least {g s t settled st} _.
Arguments fin_relaxed {g s t settled st} _.
Arguments fin_links {g s t settled st} _.
Arguments fin_exit {g s t settled st} _.

(** ** Paths as node sequences *)

(** Every node of [l] is related to the next one. *)
Fixpoint chain (R : Z → Z → Prop) (l : list Z) : Prop :=
  match l with
  | [] => True
  | a :: rest =>
      match rest with
      | [] => True
      | b :: _ => R a b
      end ∧ chain R rest
  end.

(** Each node of [path] is the predecessor of the next one. *)
Definition linked_by (prev : gmap Z Z) (path : list Z) : Prop :=
  chain (λ a b, prev !! b = Some a) path.


(** The labels of the entries of [a]'s list that lead to [b], in the
    order of the list. *)
Definition roads_between (g : AdjacencyList) (a b : Z) : list (Q * string) :=
  (λ e, (edge_miles e, edge_description e))
    <$> filter (λ e, edge_to e = b) (neighbors g a).

(** ** The name resolver and the query of [main] *)

(** What [get_place_id] raises. *)
Inductive lookup_error : Type := EmptyNameValueError | NameKeyError.

(** [get_place_id name_to_id prompt_text], [typed] being the line that
    [input] reads. *)
Definition get_place_id (name_to_id : gmap string Z) (typed : string)
  : Z + lookup_error :=
  let user_input := Text.strip typed in
  if Text.is_empty user_input then inr EmptyNameValueError
  else
    match name_to_id !! user_input with
    | Some place_id => inl place_id
    | None => inr NameKeyError
    end.

(** How a run of [main] ends: the branch that returns, with what the
    rendering loop computed when it is reached. *)
Inductive Outcome : Type :=
| FailedPlaces (e : error)
| FailedRoads (e : error)
| EmptyGraph
| Unresolved (e : lookup_error)
| NoRoute
| NoPath
| Itinerary (total_distance : Q) (out : list Printed).

(** The query of [main], from the call of [dijkstra] on: the test of the
    best distance, the test of the reconstructed path and the rendering
    loop.  [None] is a loop out of fuel. *)
Definition answer_query (fuel : nat) (graph : AdjacencyList)
    (id_to_name : gmap Z string) (source_id dest_id : Z) : option Outcome :=
  match dijkstra fuel graph source_id dest_id with
  | None => None
  | Some (graph, (dist, prev)) =>
      match dist !! dest_id with
      | None => Some NoRoute
      | Some best_distance =>
          match reconstruct_path fuel prev source_id dest_id with
          | None => None
          | Some None => Some NoPath
          | Some (Some []) => Some NoPath
          | Some (Some path) =>
              match render graph id_to_name path with
              | Some (total_distance, out) =>
                  Some (Itinerary total_distance out)
              | None => None
              end
          end
      end
  end.

(** [main] on two files and the two lines typed at the prompts; the
    counts and samples it prints after loading and the timing are left
    out. *)
Definition main (fuel : nat) (py_int : string → option Z)
    (py_float : string → option Q) (place_file road_file : source_file)
    (typed_source typed_dest : string) : option Outcome :=
  match load_places py_int place_file with
  | Raise e => Some (FailedPlaces e)
  | Ok (name_to_id, id_to_name) =>
      match load_graph py_int py_float road_file with
      | Raise e => Some (FailedRoads e)
      | Ok graph =>
          if decide (graph = ∅) then Some EmptyGraph
          else
            match get_place_id name_to_id typed_source with
            | inr e => Some (Unresolved e)
            | inl source_id =>
                match get_place_id name_to_id typed_dest with
                | inr e => Some (Unresolved e)
                | inl dest_id =>
                    answer_query fuel graph id_to_name source_id dest_id
                end
            end
      end
  end.

(** ** Lines the loaders reject *)

(** A line of a places source that is not blank and lacks the comma, or
    whose identifier field is empty or not an integer. *)
Definition malformed_place (py_int : string → option Z) (raw_line : string)
  : Prop :=
  is_blank raw_line = false ∧
  match Text.split comma 1 (Text.strip raw_line) with
  | [place_id_str; _] =>
      Text.strip place_id_str = EmptyString ∨
      py_int (Text.strip place_id_str) = None
  | _ => True
  end.

(** A line of a roads source that is not blank and has fewer than four
    fields, an identifier that is not an integer, or a distance that is not
    a number or is negative. *)
Definition malformed_road (py_int : string → option Z)
    (py_float : string → option Q) (raw_line : string) : Prop :=
  is_blank raw_line = false ∧
  match Text.split comma 3 (Text.strip raw_line) with
  | [p0; p1; p2; _] =>
      py_int (Text.strip p0) = None ∨ py_int (Text.strip p1) = None ∨
      match py_float (Text.strip p2) with
      | None => True
      | Some miles => miles < 0
      end
  | _ => True
  end.

(** ** The counts that [main] prints after loading *)

Definition node_count (graph : AdjacencyList) : nat := size graph.

(** [sum(len(neighbors) for neighbors in graph.values())] *)
Definition directed_edge_count (graph : AdjacencyList) : nat :=
  sum_list_with (λ kl : Z * list Edge, length kl.2) (map_to_list graph).

Definition undirected_edges (graph : AdjacencyList) : nat :=
  (directed_edge_count graph / 2)%nat.

(** ** Sample sources *)

Definition sample_places : list string :=
  ["1,Lexington"; "2,Columbia"; ""; "1,Elsewhere"; "4,Columbia"; "5, "]%string.

Definition sample_place_records : list (Z * string) :=
  [(1, "Lexington"); (2, "Columbia"); (1, "Elsewhere"); (4, "Columbia");
   (5, "null")]%string%Z.

Definition parallel_roads : list string :=
  ["1,2,5,A"; "2,1,6,B"; "1,2,5,A"; "3,3,1,Loop"]%string.

Definition parallel_graph : AdjacencyList :=
  match load_graph Decimal.int Decimal.float (Some parallel_roads) with
  | Ok g => g
  | Raise _ => ∅
  end.

Definition sample_roads : source_file :=
  Some ["1,2,112.5,Route128"; ""; "2,3,4.5,Main St, north"; "1,3,200,I-77";
        "4,5,7,Ferry"]%string.

Definition sample_graph : AdjacencyList :=
  match load_graph Decimal.int Decimal.float sample_roads with
  | Ok g => g
  | Raise _ => ∅
  end.

Definition broken_roads : list string :=
  ["1,2,3.5,Road"; "abc,5,10,MainSt"]%string.

Definition abc_graph : AdjacencyList :=
  match load_graph Decimal.int Decimal.float
          (Some ["1,2,3.0,First"; "2,3,4.5,Second"]%string) with
  | Ok g => g
  | Raise _ => ∅
  end.

Definition sample_run : gmap Z Q * gmap Z Z :=
  match dijkstra 50 sample_graph 1 3 with
  | Some (_, r) => r
  | None => (∅, ∅)
  end.

Definition example_places : source_file :=
  Some ["1,Lexington"; "2,Columbia"]%string.

Definition example_roads : source_file :=
  Some ["1,2,112.5,Route128"]%string.

Definition two_roads_graph : AdjacencyList :=
  match load_graph Decimal.int Decimal.float
          (Some ["1,2,10,Slow"; "1,2,3,Fast"]%string) with
  | Ok g => g
  | Raise _ => ∅
  end.

Definition sample_place_maps : gmap string Z * gmap Z string :=
  match load_places Decimal.int (Some sample_places) with
  | Ok maps => maps
  | Raise _ => (∅, ∅)
  end.




(** * Properties *)

(** ** Rational comparisons *)

Lemma Qltb_lt (x y : Q) : Qltb x y = true <-> x < y.
Proof.
  unfold Qltb. rewrite negb_true_iff, <- not_true_iff_false, Qle_bool_iff.
  split; intros H; lra.
Qed.

Lemma Qltb_ge (x y : Q) : Qltb x y = false <-> y <= x.
Proof.
  unfold Qltb. rewrite negb_false_iff, Qle_bool_iff. tauto.
Qed.


(** ** The priority queue *)

Lemma entry_ltb_le (a b : HeapEntry) : entry_ltb a b = true → a.1 <= b.1.
Proof.
  unfold entry_ltb. intros [H | H]%orb_true_iff.
  - apply Qltb_lt in H. lra.
  - apply andb_true_iff in H as [H _]. apply Qeq_bool_iff in H. lra.
Qed.

Lemma entry_ltb_ge (a b : HeapEntry) : entry_ltb a b = false → b.1 <= a.1.
Proof.
  unfold entry_ltb. intros [H _]%orb_false_iff. by apply Qltb_ge in H.
Qed.

Lemma heap_least_in (x : HeapEntry) (h : list HeapEntry) :
  heap_least x h ∈ x :: h.
Proof.
  revert x. induction h as [| y h IH]; intros x; simpl.
  - apply list_elem_of_here.
  - specialize (IH (if entry_ltb y x then y else x)).
    apply elem_of_cons in IH as [-> | IH].
    + destruct (entry_ltb y x); set_solver.
    + set_solver.
Qed.

Lemma heap_least_le_head (x : HeapEntry) (h : list HeapEntry) :
  (heap_least x h).1 <= x.1.
Proof.
  revert x. induction h as [| z h IH]; intros x; simpl; [lra |].
  specialize (IH (if entry_ltb z x then z else x)).
  destruct (entry_ltb z x) eqn:E; [apply entry_ltb_le in E |]; lra.
Qed.

Lemma heap_least_le (x : HeapEntry) (h : list HeapEntry) (y : HeapEntry) :
  y ∈ x :: h → (heap_least x h).1 <= y.1.
Proof.
  intros [-> | Hy]%elem_of_cons; [apply heap_least_le_head |].
  revert x. induction h as [| z h IH]; intros x; [by apply elem_of_nil in Hy |].
  simpl. apply elem_of_cons in Hy as [-> | Hy]; [| by apply IH].
  pose proof (heap_least_le_head (if entry_ltb z x then z else x) h) as Hle.
  destruct (entry_ltb z x) eqn:E; [| apply entry_ltb_ge in E]; lra.
Qed.

Lemma remove_first_subset (x y : HeapEntry) (h : list HeapEntry) :
  y ∈ remove_first x h → y ∈ h.
Proof.
  induction h as [| z h IH]; simpl; [done |].
  destruct (decide (z = x)); [apply list_elem_of_further |].
  intros [-> | Hy]%elem_of_cons;
    [apply list_elem_of_here | by apply list_elem_of_further, IH].
Qed.

Lemma remove_first_other (x y : HeapEntry) (h : list HeapEntry) :
  y ∈ h → y ≠ x → y ∈ remove_first x h.
Proof.
  induction h as [| z h IH]; simpl; [done |].
  intros [-> | Hy]%elem_of_cons Hne.
  - rewrite decide_False by done. apply list_elem_of_here.
  - destruct (decide (z = x)); [done |]. by apply list_elem_of_further, IH.
Qed.

Lemma remove_first_length (x : HeapEntry) (h : list HeapEntry) :
  x ∈ h → length h = S (length (remove_first x h)).
Proof.
  induction h as [| z h IH]; simpl; intros Hx; [by apply elem_of_nil in Hx |].
  destruct (decide (z = x)); [done |].
  simpl. f_equal. apply IH.
  by apply elem_of_cons in Hx as [-> | Hx].
Qed.

Lemma heappop_None (h : list HeapEntry) : heappop h = None → h = [].
Proof. by destruct h. Qed.

Lemma heappop_Some (h h' : list HeapEntry) (m : HeapEntry) :
  heappop h = Some (m, h') →
  m ∈ h ∧ (∀ y, y ∈ h → m.1 <= y.1) ∧ (∀ y, y ∈ h' → y ∈ h) ∧
  (∀ y, y ∈ h → y ≠ m → y ∈ h') ∧ length h = S (length h').
Proof.
  destruct h as [| x h0]; [done |]. unfold heappop. intros [= <- <-].
  pose proof (heap_least_in x h0) as Hin.
  split_and!; [done | | | |].
  - intros y Hy. by apply heap_least_le.
  - intros y. apply (remove_first_subset _ _ (x :: h0)).
  - intros y. apply (remove_first_other _ _ (x :: h0)).
  - by apply (remove_first_length _ (x :: h0)).
Qed.

(** ** Routes *)

Lemma route_cost_snoc (p : list Edge) (e : Edge) :
  route_cost (p ++ [e]) == route_cost p + edge_miles e.
Proof.
  induction p as [| a p IH]; simpl.
  - unfold route_cost. simpl. lra.
  - change (edge_miles a + route_cost (p ++ [e]) ==
            edge_miles a + route_cost p + edge_miles e). lra.
Qed.

Lemma is_route_snoc (g : AdjacencyList) (u : Z) (p : list Edge) (e : Edge) (v : Z) :
  is_route g u (p ++ [e]) v ↔
  ∃ x, is_route g u p x ∧ e ∈ neighbors g x ∧ edge_to e = v.
Proof.
  revert u. induction p as [| a p IH]; intros u; simpl.
  - split.
    + intros [He Hv]. by exists u.
    + intros (x & <- & He & Hv). done.
  - rewrite IH. split.
    + intros (Ha & x & Hp & He & Hv). exists x. done.
    + intros (x & (Ha & Hp) & He & Hv). split; [done |]. by exists x.
Qed.

Lemma route_cost_nonneg (g : AdjacencyList) (u : Z) (p : list Edge) (v : Z) :
  nonneg_weights g → is_route g u p v → 0 <= route_cost p.
Proof.
  intros Hg. revert u. induction p as [| a p IH]; intros u; simpl.
  - intros _. unfold route_cost. simpl. lra.
  - intros [Ha Hp]. apply IH in Hp. apply Hg in Ha.
    change (0 <= edge_miles a + route_cost p). lra.
Qed.


(** ** The work that is left *)

Lemma neighbors_insert (m : AdjacencyList) (i u : Z) (x : list Edge) :
  neighbors (<[i := x]> m) u = if decide (i = u) then x else neighbors m u.
Proof.
  unfold neighbors, dict_get. rewrite lookup_insert.
  by destruct (decide (i = u)).
Qed.

Lemma pending_work_settle (m : AdjacencyList) (u : Z) (settled : list Z) :
  u ∉ settled →
  (pending_work m (u :: settled) + length (neighbors m u))%nat
  = pending_work m settled.
Proof.
  intros Hu. unfold pending_work.
  induction m as [| i x m Hi Hfirst IH] using map_first_key_ind.
  - rewrite map_to_list_empty. unfold neighbors, dict_get.
    by rewrite lookup_empty.
  - rewrite map_to_list_insert_first_key by done. simpl.
    rewrite neighbors_insert. destruct (decide (i = u)) as [-> | Hne].
    + assert (neighbors m u = []) as Hnil
        by (unfold neighbors, dict_get; by rewrite Hi).
      rewrite Hnil in IH. simpl in IH.
      rewrite decide_True by apply list_elem_of_here.
      rewrite decide_False by done. lia.
    + destruct (decide (i ∈ settled)) as [Hin | Hout].
      * rewrite decide_True by (by apply list_elem_of_further). lia.
      * rewrite decide_False by (intros [? | ?]%elem_of_cons; done). lia.
Qed.

(** ** The invariant of the search *)

Section Engine.

Variable g : AdjacencyList.
Variable s : Z.
Hypothesis Hnonneg : nonneg_weights g.

Local Abbreviation Inv := (Inv g s).
Local Abbreviation Mid := (Mid g s).
Local Abbreviation Post := (Post g s).
Local Abbreviation scanned := (scanned g).

Lemma Inv_weaken (settled : list Z) (P P' : Z → Edge → Prop) (st : Search) :
  (∀ x e, P' x e → P x e) → Inv settled P st → Inv settled P' st.
Proof.
  intros HP [H1 H2 H3 H4 H5 H6 H7 H8]. split; try done.
  intros x e Hx. by apply H6, HP.
Qed.

Lemma Inv_dist_nonneg (settled : list Z) P (st : Search) (v : Z) (d : Q) :
  Inv settled P st → dist st !! v = Some d → 0 <= d.
Proof.
  intros HI Hv. destruct (inv_route HI v d Hv) as (p & Hp & Hc).
  pose proof (route_cost_nonneg g s p v Hnonneg Hp). lra.
Qed.

(** The entry is kept: the neighbour's distance is already as good. *)
Lemma relax_keep (u : Z) (d : Q) (settled : list Z) (done : list Edge)
    (st : Search) (e : Edge) (dv : Q) :
  Mid u d settled done st →
  dist st !! edge_to e = Some dv → dv <= d + edge_miles e →
  Mid u d settled (done ++ [e]) st.
Proof.
  intros [HI Hb Hc Hd] Hv Hle. split; try done.
  destruct HI as [H1 H2 H3 H4 H5 H6 H7 H8]. split; try done.
  intros x e' [Hs | [-> He']]; [apply H6; by left |].
  apply elem_of_app in He' as [He' | ->%list_elem_of_singleton].
  - apply H6. by right.
  - destruct Hc as (du & Hu & Hdu). exists du, dv. split_and!; [done | done | lra].
Qed.

(** The entry improves the neighbour's distance. *)
Lemma relax_update (u : Z) (d : Q) (settled : list Z) (done : list Edge)
    (st : Search) (v : Z) (w : Q) (desc : string) :
  Mid u d settled done st →
  (v, w, desc) ∈ neighbors g u →
  (∀ dv, dist st !! v = Some dv → d + w < dv) →
  Mid u d settled (done ++ [(v, w, desc)])
    {| dist := <[v := d + w]> (dist st);
       prev := <[v := u]> (prev st);
       heap := heappush (heap st) (d + w, v) |}.
Proof.
  intros [HI Hb Hc Hd] He Hlt.
  assert (0 <= w) as Hw by apply (Hnonneg u _ He).
  assert (v ∉ u :: settled) as Hfresh.
  { intros Hin. destruct (Hb v Hin) as (dx & Hx & Hle).
    specialize (Hlt dx Hx). lra. }
  assert (v ≠ u) as Hvu.
  { intros ->. apply Hfresh, list_elem_of_here. }
  destruct HI as [H1 H2 H3 H4 H5 H6 H7 H8].
  assert (v ≠ s) as Hvs.
  { intros ->. specialize (Hlt 0 H1). lra. }
  destruct Hc as (du & Hu & Hdu).
  assert (du <= d) as Hud.
  { destruct (Hb u (list_elem_of_here _ _)) as (du' & Hu' & ?). congruence. }
  split; simpl.
  - split; simpl.
    + by rewrite lookup_insert_ne.
    + intros x dx. destruct (decide (v = x)) as [<- | Hne].
      * rewrite lookup_insert_eq. intros [= <-].
        destruct (H2 u du Hu) as (p & Hp & Hcost).
        exists (p ++ [(v, w, desc)]). split.
        -- apply is_route_snoc. by exists u.
        -- rewrite route_cost_snoc. unfold edge_miles. simpl. lra.
      * rewrite lookup_insert_ne by done. apply H2.
    + intros d' x. unfold heappush. intros [[= -> ->] | Hin]%elem_of_cons.
      * exists (d + w). rewrite lookup_insert_eq. split; [done | lra].
      * destruct (H3 d' x Hin) as (dx & Hx & Hle).
        destruct (decide (v = x)) as [<- | Hne].
        -- exists (d + w). rewrite lookup_insert_eq. split; [done |].
           specialize (Hlt dx Hx). lra.
        -- exists dx. by rewrite lookup_insert_ne.
    + intros x dx. unfold heappush. destruct (decide (v = x)) as [<- | Hne].
      * rewrite lookup_insert_eq. intros [= <-] _. apply list_elem_of_here.
      * rewrite lookup_insert_ne by done. intros Hx Hns.
        apply list_elem_of_further. by apply H4.
    + intros x Hx. apply lookup_insert_is_Some'. right. by apply H5.
    + assert (∀ x e', scanned settled x e' ∨ x = u ∧ e' ∈ done →
                x ∈ u :: settled) as Hsettled.
      { intros x e' [[Hx _] | [-> _]];
          [by apply list_elem_of_further | apply list_elem_of_here]. }
      assert (∀ x e', x ∈ u :: settled → relaxed st x e' →
                relaxed {| dist := <[v := d + w]> (dist st);
                           prev := <[v := u]> (prev st);
                           heap := heappush (heap st) (d + w, v) |} x e')
        as Hkeep.
      { intros x e' Hx (dx & dy & Hdx & Hdy & Hle). unfold relaxed. simpl.
        assert (v ≠ x) as Hne by (intros <-; done).
        destruct (decide (v = edge_to e')) as [Heq | Hne'].
        - exists dx, (d + w). rewrite lookup_insert_ne by done.
          rewrite Heq at 1. rewrite lookup_insert_eq.
          split_and!; [done | done |].
          rewrite <- Heq in Hdy. specialize (Hlt dy Hdy). lra.
        - exists dx, dy. by rewrite !lookup_insert_ne. }
      intros x e' [Hs | [-> He']].
      * apply Hkeep; [eapply Hsettled; by left | apply H6; by left].
      * apply elem_of_app in He' as [He' | ->%list_elem_of_singleton].
        -- apply Hkeep; [apply list_elem_of_here | apply H6; by right].
        -- exists du, (d + w). unfold edge_to, edge_miles. simpl.
           rewrite lookup_insert_ne by done. rewrite lookup_insert_eq.
           split_and!; [done | done | lra].
    + intros x dx d' y Hx. rewrite lookup_insert_ne by (intros <-; done).
      intros Hdx. unfold heappush. intros [[= -> ->] | Hin]%elem_of_cons.
      * destruct (Hb x Hx) as (dx' & Hx' & Hle).
        assert (dx' = dx) as -> by congruence. lra.
      * by eapply H7.
    + intros x y. destruct (decide (v = x)) as [<- | Hne].
      * rewrite lookup_insert_eq. intros [= <-]. split_and!.
        -- rewrite lookup_insert_eq. by eexists.
        -- done.
        -- apply list_elem_of_here.
        -- intros l1 l2 Heq. exfalso. apply Hfresh. rewrite Heq.
           apply elem_of_app. right. apply list_elem_of_here.
      * rewrite lookup_insert_ne by done. intros Hxy.
        destruct (H8 x y Hxy) as (Hd1 & Hd2 & Hd3 & Hd4).
        split_and!; try done. apply lookup_insert_is_Some'. by right.
  - intros x Hx. rewrite lookup_insert_ne by (intros <-; done). by apply Hb.
  - exists du. by rewrite lookup_insert_ne.
  - done.
Qed.

Lemma relax_Mid (u : Z) (d : Q) (settled : list Z) (done : list Edge)
    (st : Search) (e : Edge) :
  Mid u d settled done st → e ∈ neighbors g u →
  Mid u d settled (done ++ [e]) (relax u d st e).
Proof.
  intros HM He. destruct e as [[v w] desc]. unfold relax.
  destruct (dist st !! v) as [dv |] eqn:Ev; simpl.
  - destruct (Qltb (d + w) dv) eqn:El.
    + apply relax_update; [done | done |].
      intros dv' Hdv'. assert (dv' = dv) as -> by congruence.
      by apply Qltb_lt.
    + apply relax_keep with dv; [done | done |]. by apply Qltb_ge.
  - apply relax_update; [done | done |]. intros dv' Hdv'. congruence.
Qed.

Lemma relax_heap_length (u : Z) (d : Q) (st : Search) (e : Edge) :
  (length (heap (relax u d st e)) <= S (length (heap st)))%nat.
Proof.
  destruct e as [[v w] desc]. unfold relax.
  destruct (lt_inf (d + w) (dist st !! v)); simpl; lia.
Qed.

Lemma foldl_relax_Mid (u : Z) (d : Q) (settled : list Z) (todo done : list Edge)
    (st : Search) :
  (∀ e, e ∈ todo → e ∈ neighbors g u) →
  Mid u d settled done st →
  Mid u d settled (done ++ todo) (foldl (relax u d) st todo) ∧
  (length (heap (foldl (relax u d) st todo)) <= length (heap st) + length todo)%nat.
Proof.
  revert done st. induction todo as [| e todo IH]; intros done st Hall HM; simpl.
  - rewrite app_nil_r. split; [done | lia].
  - assert (e ∈ neighbors g u) as He by (apply Hall, list_elem_of_here).
    destruct (IH (done ++ [e]) (relax u d st e)) as [HM' Hlen].
    + intros e' He'. by apply Hall, list_elem_of_further.
    + by apply relax_Mid.
    + rewrite <- app_assoc in HM'. split; [done |].
      pose proof (relax_heap_length u d st e). lia.
Qed.

(** Scanning again a node whose edges are all relaxed changes nothing. *)
Lemma foldl_relax_noop (u : Z) (d : Q) (todo : list Edge) (st : Search) :
  (∀ e, e ∈ todo →
     ∃ dv, dist st !! edge_to e = Some dv ∧ dv <= d + edge_miles e) →
  foldl (relax u d) st todo = st.
Proof.
  induction todo as [| e todo IH]; intros Hall; simpl; [done |].
  assert (relax u d st e = st) as ->.
  { destruct (Hall e (list_elem_of_here _ _)) as (dv & Hv & Hle).
    destruct e as [[v w] desc]. unfold relax, edge_to, edge_miles in *.
    simpl in *. rewrite Hv. simpl.
    assert (Qltb (d + w) dv = false) as -> by (by apply Qltb_ge). done. }
  apply IH. intros e' He'. by apply Hall, list_elem_of_further.
Qed.

(** A stale entry, or the entry of a settled node, is dropped. *)
Lemma Inv_drop (settled : list Z) (st : Search) (d : Q) (u : Z)
    (h' : list HeapEntry) :
  Inv settled (scanned settled) st →
  heappop (heap st) = Some ((d, u), h') →
  gt_inf d (dist st !! u) = true ∨ u ∈ settled →
  Inv settled (scanned settled) (with_heap st h').
Proof.
  intros [H1 H2 H3 H4 H5 H6 H7 H8] Hpop Hcase.
  apply heappop_Some in Hpop as (Hm & Hmin & Hsub & Hother & Hlen).
  split; simpl; try done.
  - intros d' v Hin. apply H3, Hsub, Hin.
  - intros v dv Hv Hns. apply Hother; [by apply H4 |].
    intros [= -> ->]. destruct Hcase as [Hstale | Hin]; [| done].
    rewrite Hv in Hstale. simpl in Hstale. apply Qltb_lt in Hstale. lra.
  - intros x dx d' v Hx Hdx Hin. eapply H7; [done | done | by apply Hsub].
Qed.

(** A fresh node is popped: the invariant of the inner loop holds. *)
Lemma Inv_pop_fresh (settled : list Z) (st : Search) (d : Q) (u : Z)
    (h' : list HeapEntry) :
  Inv settled (scanned settled) st →
  heappop (heap st) = Some ((d, u), h') →
  gt_inf d (dist st !! u) = false →
  u ∉ settled →
  Mid u d settled [] (with_heap st h').
Proof.
  intros HI Hpop Hfresh Hu.
  pose proof HI as [H1 H2 H3 H4 H5 H6 H7 H8].
  apply heappop_Some in Hpop as (Hm & Hmin & Hsub & Hother & Hlen).
  destruct (H3 d u Hm) as (du & Hdu & Hle).
  assert (d <= du) as Hge.
  { rewrite Hdu in Hfresh. simpl in Hfresh. by apply Qltb_ge in Hfresh. }
  split; simpl.
  - split; simpl; try done.
    + intros d' v Hin. apply H3, Hsub, Hin.
    + intros v dv Hv Hns. apply Hother.
      * apply H4; [done |]. intros Hin. by apply Hns, list_elem_of_further.
      * intros [= -> ->]. apply Hns, list_elem_of_here.
    + intros x [-> | Hx]%elem_of_cons; [by eexists | by apply H5].
    + intros x e [Hs | [_ []%elem_of_nil]]. by apply H6.
    + intros x dx d' v [-> | Hx]%elem_of_cons Hdx Hin.
      * assert (dx = du) as -> by congruence.
        specialize (Hmin (d', v) (Hsub _ Hin)). simpl in Hmin. lra.
      * eapply H7; [done | done | by apply Hsub].
    + intros v y Hvy. destruct (H8 v y Hvy) as (Hd1 & Hd2 & Hd3 & Hd4).
      split_and!; [done | done | by apply list_elem_of_further |].
      intros l1 l2 Heq. destruct l1 as [| a l1]; simpl in Heq.
      * by injection Heq as _ <-.
      * injection Heq as _ Heq. by eapply Hd4.
  - intros x [-> | Hx]%elem_of_cons; [by exists du |].
    destruct (H5 x Hx) as (dx & Hdx). exists dx. split; [done |].
    by eapply H7.
  - by exists du.
  - pose proof (Inv_dist_nonneg _ _ _ _ _ HI Hdu). lra.
Qed.

Lemma Mid_finish (u : Z) (d : Q) (settled : list Z) (st : Search) :
  Mid u d settled (neighbors g u) st →
  Inv (u :: settled) (scanned (u :: settled)) st.
Proof.
  intros [HI _ _ _]. eapply Inv_weaken; [| exact HI].
  intros x e [[-> | Hx]%elem_of_cons He]; [by right | by left].
Qed.

(** Below every route from the source lies a known distance: that of its
    end, or that of a node that is not settled yet. *)
Lemma frontier (settled : list Z) (st : Search) (p : list Edge) (x : Z) :
  Inv settled (scanned settled) st → is_route g s p x →
  ∃ y dy, dist st !! y = Some dy ∧ dy <= route_cost p ∧ (y = x ∨ y ∉ settled).
Proof.
  intros HI. revert x. induction p as [| e p IH] using rev_ind; intros x Hp.
  - simpl in Hp. subst x. exists s, 0. split_and!.
    + apply (inv_source HI).
    + unfold route_cost. simpl. lra.
    + by left.
  - apply is_route_snoc in Hp as (x0 & Hp & He & Hx).
    destruct (IH x0 Hp) as (y & dy & Hy & Hle & Hcase).
    pose proof (route_cost_snoc p e) as Hcost.
    pose proof (Hnonneg x0 e He) as Hw.
    destruct Hcase as [-> | Hns].
    + destruct (decide (x0 ∈ settled)) as [Hin | Hout].
      * destruct (inv_relaxed HI x0 e (conj Hin He))
          as (dx & dv & Hdx & Hdv & Hrel).
        assert (dx = dy) as -> by congruence.
        exists x, dv. rewrite <- Hx. split_and!; [done | lra | by left].
      * exists x0, dy. split_and!; [done | lra | by right].
    + exists y, dy. split_and!; [done | lra | by right].
Qed.

(** The loop is left by [break]: the target was popped. *)
Lemma Post_break (settled : list Z) (st : Search) (d : Q) (t : Z)
    (h' : list HeapEntry) :
  Inv settled (scanned settled) st →
  heappop (heap st) = Some ((d, t), h') →
  gt_inf d (dist st !! t) = false →
  Post t (with_heap st h').
Proof.
  intros HI Hpop Hfresh. pose proof HI as [H1 H2 H3 H4 H5 H6 H7 H8].
  apply heappop_Some in Hpop as (Hm & Hmin & _).
  split; simpl; [done | done | | by exists settled].
  intros dt p Hdt Hp.
  destruct (frontier settled st p t HI Hp) as (y & dy & Hy & Hle & [-> | Hns]).
  - assert (dy = dt) as -> by congruence. done.
  - specialize (Hmin (dy, y) (H4 y dy Hy Hns)). simpl in Hmin.
    destruct (H3 d t Hm) as (dt' & Hdt' & Hle').
    assert (dt' = dt) as -> by congruence. lra.
Qed.

(** The loop is left because the heap is empty. *)
Lemma Post_empty (settled : list Z) (st : Search) (t : Z) :
  Inv settled (scanned settled) st → heap st = [] → Post t st.
Proof.
  intros HI Hnil. pose proof HI as [H1 H2 H3 H4 H5 H6 H7 H8].
  split; [done | done | | by exists settled].
  intros dt p Hdt Hp.
  destruct (frontier settled st p t HI Hp) as (y & dy & Hy & Hle & [-> | Hns]).
  - assert (dy = dt) as -> by congruence. done.
  - specialize (H4 y dy Hy Hns). rewrite Hnil in H4.
    by apply elem_of_nil in H4.
Qed.

Lemma dijkstra_loop_returns (fuel : nat) (settled : list Z) (st : Search) (t : Z) :
  Inv settled (scanned settled) st →
  (length (heap st) + pending_work g settled < fuel)%nat →
  ∃ st', dijkstra_loop fuel g t st = Some (g, st') ∧ Post t st'.
Proof.
  revert settled st. induction fuel as [| fuel IH]; intros settled st HI Hfuel;
    [lia |].
  simpl. destruct (heappop (heap st)) as [[[d u] h'] |] eqn:Hpop.
  - change {| dist := dist st; prev := prev st; heap := h' |}
      with (with_heap st h').
    pose proof (heappop_Some _ _ _ Hpop) as (Hm & _ & _ & _ & Hlen).
    destruct (gt_inf d (dist st !! u)) eqn:Hstale.
    + apply (IH settled); [eapply Inv_drop; eauto | simpl; lia].
    + destruct (decide (u = t)) as [-> | Hut].
      * eexists. split; [done |]. by eapply Post_break.
      * destruct (decide (u ∈ settled)) as [Hin | Hout].
        -- rewrite foldl_relax_noop.
           ++ apply (IH settled); [eapply Inv_drop; eauto | simpl; lia].
           ++ intros e He. simpl.
              destruct (inv_relaxed HI u e (conj Hin He))
                as (dx & dv & Hdx & Hdv & Hrel).
              destruct (inv_heap HI d u Hm) as (du & Hdu & Hle).
              assert (du = dx) as -> by congruence.
              exists dv. split; [done | lra].
        -- pose proof (Inv_pop_fresh _ _ _ _ _ HI Hpop Hstale Hout) as HM.
           destruct (foldl_relax_Mid u d settled (neighbors g u) []
                       (with_heap st h') ltac:(done) HM) as [HM' Hlen'].
           apply (IH (u :: settled)); [exact (Mid_finish u d _ _ HM') |].
           pose proof (pending_work_settle g u settled Hout).
           simpl in Hlen'. unfold neighbors in *. lia.
  - apply heappop_None in Hpop. eexists. split; [done |].
    by eapply Post_empty.
Qed.

Lemma Inv_initial : Inv [] (scanned []) (initial s).
Proof.
  split; simpl.
  - apply lookup_singleton_eq.
  - intros v d [<- <-]%lookup_singleton_Some. exists []. split; [done |].
    unfold route_cost. simpl. lra.
  - intros d v [= -> ->]%list_elem_of_singleton. exists 0.
    rewrite lookup_singleton_eq. split; [done | lra].
  - intros v d [<- <-]%lookup_singleton_Some _. apply list_elem_of_here.
  - intros x []%elem_of_nil.
  - intros x e [[]%elem_of_nil _].
  - intros x dx d v []%elem_of_nil.
  - intros v u. by rewrite lookup_empty.
Qed.

Lemma dijkstra_loop_total (fuel : nat) (t : Z) :
  (enough_fuel g <= fuel)%nat →
  ∃ st', dijkstra_loop fuel g t (initial s) = Some (g, st') ∧ Post t st'.
Proof.
  intros Hfuel. apply (dijkstra_loop_returns fuel []); [apply Inv_initial |].
  unfold enough_fuel in Hfuel. simpl. lia.
Qed.

End Engine.

(** More fuel does not change what the loop returns. *)
Lemma dijkstra_loop_more_fuel (n m : nat) (g : AdjacencyList) (t : Z)
    (st : Search) (r : AdjacencyList * Search) :
  dijkstra_loop n g t st = Some r → (n <= m)%nat →
  dijkstra_loop m g t st = Some r.
Proof.
  revert m st. induction n as [| n IH]; intros m st Hr Hle; [done |].
  destruct m as [| m]; [lia |]. simpl in *.
  destruct (heappop (heap st)) as [[[d u] h'] |]; [| done].
  destruct (gt_inf d (dist st !! u)); [apply IH; [done | lia] |].
  destruct (decide (u = t)); [done |]. apply IH; [done | lia].
Qed.

(** The loop returns the graph it was given. *)
Lemma dijkstra_loop_graph (n : nat) (g g' : AdjacencyList) (t : Z)
    (st st' : Search) :
  dijkstra_loop n g t st = Some (g', st') → g' = g.
Proof.
  revert st. induction n as [| n IH]; intros st Hr; [done |]. simpl in Hr.
  destruct (heappop (heap st)) as [[[d u] h'] |]; [| congruence].
  destruct (gt_inf d (dist st !! u)); [by eapply IH |].
  destruct (decide (u = t)); [congruence | by eapply IH].
Qed.

(** ** The engine on any graph *)

Lemma relax_Reach (g : AdjacencyList) (s u : Z) (d : Q) (st : Search) (e : Edge) :
  Reach g s st → rtc (linked g) s u → e ∈ neighbors g u →
  Reach g s (relax u d st e).
Proof.
  intros [H1 H2 H3] Hu He. destruct e as [[v w] desc]. unfold relax.
  destruct (lt_inf (d + w) (dist st !! v)); [| done].
  split; simpl.
  - intros x dx. destruct (decide (v = x)) as [<- | Hne].
    + intros _. eapply rtc_r; [exact Hu |]. by exists (v, w, desc).
    + rewrite lookup_insert_ne by done. apply H1.
  - intros d' x. unfold heappush. intros [[= -> ->] | Hin]%elem_of_cons.
    + rewrite lookup_insert_eq. by eexists.
    + apply lookup_insert_is_Some'. right. by eapply H2.
  - intros x y. destruct (decide (v = x)) as [<- | Hne].
    + intros _. rewrite lookup_insert_eq. by eexists.
    + rewrite !lookup_insert_ne by done. apply H3.
Qed.

Lemma foldl_relax_Reach (g : AdjacencyList) (s u : Z) (d : Q)
    (todo : list Edge) (st : Search) :
  (∀ e, e ∈ todo → e ∈ neighbors g u) →
  Reach g s st → rtc (linked g) s u →
  Reach g s (foldl (relax u d) st todo).
Proof.
  revert st. induction todo as [| e todo IH]; intros st Hall HR Hu; [done |].
  simpl. apply IH; [| | done].
  - intros e' He'. by apply Hall, list_elem_of_further.
  - apply relax_Reach; [done | done |]. apply Hall, list_elem_of_here.
Qed.

Lemma dijkstra_loop_Reach (g g' : AdjacencyList) (s t : Z) (fuel : nat)
    (st st' : Search) :
  Reach g s st → dijkstra_loop fuel g t st = Some (g', st') → Reach g s st'.
Proof.
  revert st. induction fuel as [| fuel IH]; intros st HR Hrun; [done |].
  simpl in Hrun.
  destruct (heappop (heap st)) as [[[d u] h'] |] eqn:Hpop;
    [| by injection Hrun as _ <-].
  apply heappop_Some in Hpop as (Hm & _ & Hsub & _).
  assert (Reach g s (with_heap st h')) as HR'.
  { destruct HR as [H1 H2 H3]. split; simpl; [done | | done].
    intros d' v Hin. by eapply H2, Hsub. }
  destruct (gt_inf d (dist st !! u)); [by eapply IH |].
  destruct (decide (u = t)); [by injection Hrun as _ <- |].
  eapply IH; [| exact Hrun]. apply foldl_relax_Reach; [done | done |].
  destruct (reach_heap g s st HR d u Hm) as [du Hdu].
  by eapply (reach_dist g s st HR).
Qed.

Lemma Reach_initial (g : AdjacencyList) (s : Z) : Reach g s (initial s).
Proof.
  split; simpl.
  - intros v d [<- _]%lookup_singleton_Some. apply rtc_refl.
  - intros d v [= -> ->]%list_elem_of_singleton.
    rewrite lookup_singleton_eq. by eexists.
  - intros v u. by rewrite lookup_empty.
Qed.

(** ** The engine on a graph of non-negative weights *)

Lemma dijkstra_unfold (fuel : nat) (g g' : AdjacencyList) (s t : Z)
    (r : gmap Z Q * gmap Z Z) :
  dijkstra fuel g s t = Some (g', r) ↔
  ∃ st, dijkstra_loop fuel g t (initial s) = Some (g', st) ∧
        r = (dist st, prev st).
Proof.
  unfold dijkstra. split.
  - destruct (dijkstra_loop fuel g t (initial s)) as [[g'' st] |]; [| done].
    intros [= -> <-]. by exists st.
  - intros (st & -> & ->). done.
Qed.

(** Every run that returns, returns the same state; with [enough_fuel]
    the run returns. *)
Lemma dijkstra_result (g : AdjacencyList) (s t : Z) :
  nonneg_weights g →
  ∃ st, Post g s t st ∧
    (∀ fuel, (enough_fuel g <= fuel)%nat →
       dijkstra fuel g s t = Some (g, (dist st, prev st))) ∧
    (∀ fuel g' r, dijkstra fuel g s t = Some (g', r) →
       g' = g ∧ r = (dist st, prev st)).
Proof.
  intros Hg.
  destruct (dijkstra_loop_total g s Hg (enough_fuel g) t ltac:(lia))
    as (st & Hrun & Hpost).
  exists st. split_and!; [done | |].
  - intros fuel Hfuel. apply dijkstra_unfold. exists st. split; [| done].
    by apply dijkstra_loop_more_fuel with (enough_fuel g).
  - intros fuel g' r (st' & Hrun' & ->)%dijkstra_unfold.
    pose proof (dijkstra_loop_graph _ _ _ _ _ _ Hrun') as ->.
    apply dijkstra_loop_more_fuel with (m := (fuel `max` enough_fuel g)%nat)
      in Hrun; [| lia].
    apply dijkstra_loop_more_fuel with (m := (fuel `max` enough_fuel g)%nat)
      in Hrun'; [| lia].
    split; [done |]. congruence.
Qed.

(** ** The backward walk *)

Lemma walk_back_ranked (prev : gmap Z Z) (settled : list Z) (source : Z) :
  ranked prev settled →
  ∀ k v l1 l2 path, settled = l1 ++ v :: l2 → (length l2 < k)%nat →
    ∃ r, ∀ m, (k <= m)%nat → walk_back m prev source v path = Some r.
Proof.
  intros Hrank. induction k as [| k IH]; intros v l1 l2 path Hs Hk; [lia |].
  destruct (decide (v = source)) as [Hv | Hv].
  { exists (Some (reverse path)). intros [| m] Hm; [lia |]. simpl.
    by rewrite decide_True. }
  destruct (prev !! v) as [u |] eqn:Hp.
  - destruct (Hrank v u Hp) as [_ Hlater].
    specialize (Hlater l1 l2 Hs).
    apply list_elem_of_split in Hlater as (l3 & l4 & ->).
    destruct (IH u (l1 ++ v :: l3) l4 (path ++ [u])) as (r & Hr).
    + rewrite Hs, <- app_assoc. done.
    + rewrite length_app in Hk. simpl in Hk. lia.
    + exists r. intros [| m] Hm; [lia |]. simpl.
      rewrite decide_False by done. rewrite Hp. apply Hr. lia.
  - exists None. intros [| m] Hm; [lia |]. simpl.
    rewrite decide_False by done. by rewrite Hp.
Qed.

Lemma reconstruct_path_ranked (prev : gmap Z Z) (settled : list Z)
    (source target : Z) :
  ranked prev settled →
  ∃ r, ∀ m, (S (length settled) <= m)%nat →
    reconstruct_path m prev source target = Some r.
Proof.
  intros Hrank. unfold reconstruct_path.
  destruct (decide (source = target)) as [Hst | Hst]; [by eexists |].
  destruct (decide (is_Some (prev !! target))) as [[u Hu] | Hnone];
    [| by eexists].
  destruct (Hrank target u Hu) as [Hin _].
  apply list_elem_of_split in Hin as (l1 & l2 & Hs).
  destruct (walk_back_ranked prev settled source Hrank (S (length l2)) u l1 l2
              ([target] ++ [u]) Hs ltac:(lia)) as (r & Hr).
  exists r. intros [| m] Hm; [lia |]. simpl.
  rewrite decide_False by done. rewrite Hu. apply Hr.
  rewrite Hs, length_app in Hm. simpl in Hm. lia.
Qed.

Lemma Post_ranked (g : AdjacencyList) (s t : Z) (st : Search) :
  Post g s t st → ∃ settled, ranked (prev st) settled.
Proof.
  intros [_ _ _ (settled & Hprev)]. exists settled. intros v u Hvu.
  destruct (Hprev v u Hvu) as (_ & _ & Hin & Hlater). done.
Qed.

(** ** The loaders *)

Lemma occurrences_app {A} `{EqDecision A} (x : A) (l k : list A) :
  occurrences x (l ++ k) = (occurrences x l + occurrences x k)%nat.
Proof. unfold occurrences. by rewrite filter_app, length_app. Qed.

Lemma occurrences_cons {A} `{EqDecision A} (x y : A) (l : list A) :
  occurrences x (y :: l)
  = ((if decide (x = y) then 1 else 0) + occurrences x l)%nat.
Proof.
  unfold occurrences. rewrite filter_cons.
  destruct (decide (x = y)); done.
Qed.

Lemma occurrences_pos {A} `{EqDecision A} (x : A) (l : list A) :
  x ∈ l ↔ (0 < occurrences x l)%nat.
Proof.
  induction l as [| y l IH].
  - split; [by intros ?%elem_of_nil | unfold occurrences; simpl; lia].
  - rewrite occurrences_cons, elem_of_cons, IH.
    destruct (decide (x = y)); [split; [lia | by left] |].
    split; [intros [? | ?]; [done | lia] | intros ?; right; lia].
Qed.

Lemma neighbors_append_edge (k : Z) (e : Edge) (g : AdjacencyList) (u : Z) :
  neighbors (append_edge k e g) u
  = if decide (k = u) then neighbors g u ++ [e] else neighbors g u.
Proof.
  unfold append_edge, setdefault, neighbors, dict_get.
  destruct (g !! k) as [l |] eqn:Hk.
  - rewrite lookup_insert. destruct (decide (k = u)) as [<- | Hne]; [| done].
    by rewrite Hk.
  - rewrite lookup_insert. destruct (decide (k = u)) as [<- | Hne].
    + by rewrite Hk.
    + by rewrite lookup_insert_ne.
Qed.

Lemma neighbors_record_road (r : Road) (g : AdjacencyList) (u : Z) :
  neighbors (record_road r g) u
  = neighbors g u
    ++ (if decide (r.1.1.1 = u) then [(r.1.1.2, r.1.2, r.2)] else [])
    ++ (if decide (r.1.1.2 = u) then [(r.1.1.1, r.1.2, r.2)] else []).
Proof.
  destruct r as [[[left_id right_id] miles] description]. simpl.
  unfold record_road. rewrite !neighbors_append_edge.
  destruct (decide (left_id = u)), (decide (right_id = u)); simpl;
    by rewrite <- ?app_assoc, ?app_nil_r.
Qed.

Lemma neighbors_empty (u : Z) : neighbors ∅ u = [].
Proof. unfold neighbors, dict_get. by rewrite lookup_empty. Qed.

Lemma record_roads_occurrences (roads : list Road) (g : AdjacencyList)
    (u v : Z) (w : Q) (d : string) :
  occurrences (v, w, d) (neighbors (record_roads g roads) u)
  = (occurrences (v, w, d) (neighbors g u)
     + occurrences (u, v, w, d) roads + occurrences (v, u, w, d) roads)%nat.
Proof.
  revert g. induction roads as [| r roads IH]; intros g.
  - unfold occurrences. simpl. lia.
  - change (record_roads g (r :: roads))
      with (record_roads (record_road r g) roads).
    rewrite IH, neighbors_record_road.
    rewrite !occurrences_app, !(occurrences_cons _ r).
    destruct r as [[[a b] m] c]. cbn [fst snd]. unfold Road, Edge in *.
    destruct (decide (a = u)) as [-> | Ha], (decide (b = u)) as [-> | Hb];
      rewrite ?occurrences_cons; unfold occurrences at 2 3;
      cbn [filter list_filter length];
      repeat case_decide; simplify_eq; lia.
Qed.

Lemma record_roads_prefix (roads : list Road) (g : AdjacencyList) (u : Z) :
  neighbors g u `prefix_of` neighbors (record_roads g roads) u.
Proof.
  revert g. induction roads as [| r roads IH]; intros g; [done |].
  unfold record_roads in *. simpl. etrans; [| apply IH].
  rewrite neighbors_record_road. by apply prefix_app_r.
Qed.

Lemma record_roads_nonneg (roads : list Road) (g : AdjacencyList) :
  Forall (λ r : Road, 0 <= r.1.2) roads →
  nonneg_weights g → nonneg_weights (record_roads g roads).
Proof.
  revert g. induction roads as [| r roads IH]; intros g Hall Hg; [done |].
  apply Forall_cons in Hall as [Hr Hall].
  unfold record_roads in *. simpl. apply IH; [done |].
  intros u e. rewrite neighbors_record_road.
  intros [He | [He | He]%elem_of_app]%elem_of_app; [by eapply Hg | |].
  - destruct (decide (r.1.1.1 = u)); [| by apply elem_of_nil in He].
    by apply list_elem_of_singleton in He as ->.
  - destruct (decide (r.1.1.2 = u)); [| by apply elem_of_nil in He].
    by apply list_elem_of_singleton in He as ->.
Qed.

Section LoaderFacts.

Variable py_int : string → option Z.
Variable py_float : string → option Q.

Lemma load_places_loop_records (lines : list string)
    (name_to_id : gmap string Z) (id_to_name : gmap Z string) :
  load_places_loop py_int lines name_to_id id_to_name
  = match parsed_places py_int lines with
    | Ok records =>
        Ok (foldl (λ acc r, record_place r.1 r.2 acc.1 acc.2)
              (name_to_id, id_to_name) records)
    | Raise e => Raise e
    end.
Proof.
  revert name_to_id id_to_name.
  induction lines as [| raw_line rest IH]; intros name_to_id id_to_name;
    simpl; [done |].
  destruct (parse_place_line py_int raw_line) as [[[place_id place_name] |] | e];
    [| apply IH | done].
  rewrite IH. by destruct (parsed_places py_int rest).
Qed.

Lemma load_graph_loop_records (lines : list string) (g : AdjacencyList) :
  load_graph_loop py_int py_float lines g
  = match parsed_roads py_int py_float lines with
    | Ok roads => Ok (record_roads g roads)
    | Raise e => Raise e
    end.
Proof.
  revert g. induction lines as [| raw_line rest IH]; intros g; simpl; [done |].
  destruct (parse_road_line py_int py_float raw_line) as [[r |] | e];
    [| apply IH | done].
  rewrite IH. by destruct (parsed_roads py_int py_float rest).
Qed.

Lemma load_graph_loop_app (l1 l2 : list string) (g : AdjacencyList) :
  load_graph_loop py_int py_float (l1 ++ l2) g
  = match load_graph_loop py_int py_float l1 g with
    | Ok g1 => load_graph_loop py_int py_float l2 g1
    | Raise e => Raise e
    end.
Proof.
  revert g. induction l1 as [| raw_line l1 IH]; intros g; simpl; [done |].
  by destruct (parse_road_line py_int py_float raw_line) as [[r |] | e].
Qed.

Lemma parse_road_line_nonneg (raw_line : string) (r : Road) :
  parse_road_line py_int py_float raw_line = Ok (Some r) → 0 <= r.1.2.
Proof.
  unfold parse_road_line.
  destruct (Text.is_empty (Text.strip raw_line)); [done |].
  destruct (Text.split comma 3 (Text.strip raw_line))
    as [| p0 [| p1 [| p2 [| p3 [| p4 ps]]]]]; try done.
  destruct (py_int (Text.strip p0)); [| done].
  destruct (py_int (Text.strip p1)); [| done].
  destruct (py_float (Text.strip p2)) as [miles |]; [| done].
  destruct (Qltb miles 0) eqn:Hm; [done |].
  intros [= <-]. simpl. by apply Qltb_ge.
Qed.

Lemma parsed_roads_nonneg (lines : list string) (roads : list Road) :
  parsed_roads py_int py_float lines = Ok roads →
  Forall (λ r : Road, 0 <= r.1.2) roads.
Proof.
  revert roads. induction lines as [| raw_line rest IH]; intros roads; simpl.
  - intros [= <-]. constructor.
  - destruct (parse_road_line py_int py_float raw_line) as [[r |] | e] eqn:Hr;
      [| apply IH | done].
    destruct (parsed_roads py_int py_float rest) as [rs | e]; [| done].
    intros [= <-]. constructor; [by eapply parse_road_line_nonneg | by apply IH].
Qed.

Lemma load_graph_nonneg (road_file : source_file) (g : AdjacencyList) :
  load_graph py_int py_float road_file = Ok g → nonneg_weights g.
Proof.
  destruct road_file as [lines |]; [| done]. simpl.
  rewrite load_graph_loop_records.
  destruct (parsed_roads py_int py_float lines) as [roads | e] eqn:Hp; [| done].
  intros [= <-]. apply record_roads_nonneg; [by eapply parsed_roads_nonneg |].
  intros u e. rewrite neighbors_empty. by intros ?%elem_of_nil.
Qed.

Lemma parse_road_line_error (raw_line : string) (e : error) :
  parse_road_line py_int py_float raw_line = Raise e → e = ValueError.
Proof.
  unfold parse_road_line.
  destruct (Text.is_empty (Text.strip raw_line)); [done |].
  destruct (Text.split comma 3 (Text.strip raw_line))
    as [| p0 [| p1 [| p2 [| p3 [| p4 ps]]]]]; try congruence.
  destruct (py_int (Text.strip p0)); [| congruence].
  destruct (py_int (Text.strip p1)); [| congruence].
  destruct (py_float (Text.strip p2)) as [miles |]; [| congruence].
  destruct (Qltb miles 0); congruence.
Qed.

Lemma parse_road_line_bad (raw_line : string) :
  is_blank raw_line = false → py_int (first_field raw_line) = None →
  parse_road_line py_int py_float raw_line = Raise ValueError.
Proof.
  unfold parse_road_line, is_blank, first_field. intros -> Hbad.
  destruct (Text.split comma 3 (Text.strip raw_line))
    as [| p0 [| p1 [| p2 [| p3 [| p4 ps]]]]]; try done.
  simpl in Hbad. by rewrite Hbad.
Qed.

End LoaderFacts.

Lemma record_places_lookup (records : list (Z * string))
    (name_to_id : gmap string Z) (id_to_name : gmap Z string) :
  (∀ i, (record_places (name_to_id, id_to_name) records).2 !! i
        = match id_to_name !! i with
          | Some x => Some x
          | None => first_with i records
          end) ∧
  (∀ n, (record_places (name_to_id, id_to_name) records).1 !! n
        = match name_to_id !! n with
          | Some x => Some x
          | None => first_with n (prod_swap <$> records)
          end).
Proof.
  revert name_to_id id_to_name.
  induction records as [| [pid pname] records IH];
    intros name_to_id id_to_name.
  - split; intros k; simpl; by destruct (_ !! k).
  - unfold record_places in *. cbn [foldl fst snd fmap list_fmap prod_swap].
    unfold record_place at 2 4. cbn [fst snd].
    destruct (IH (setdefault pname pid name_to_id).2
                (if decide (is_Some (id_to_name !! pid)) then id_to_name
                 else <[pid := pname]> id_to_name)) as [IH1 IH2].
    split.
    + intros i. rewrite IH1. simpl.
      destruct (decide (is_Some (id_to_name !! pid))) as [[x Hx] | Hnone].
      * destruct (id_to_name !! i) eqn:Hi; [done |].
        rewrite decide_False; [done | congruence].
      * rewrite lookup_insert. destruct (decide (pid = i)) as [-> | Hne].
        -- apply eq_None_not_Some in Hnone. by rewrite Hnone.
        -- done.
    + intros n. rewrite IH2. simpl. unfold setdefault.
      destruct (name_to_id !! pname) as [x |] eqn:Hx; simpl.
      * destruct (name_to_id !! n) eqn:Hn; [done |].
        rewrite decide_False; [done | congruence].
      * rewrite lookup_insert. destruct (decide (pname = n)) as [-> | Hne].
        -- by rewrite Hx.
        -- done.
Qed.

(** ** The renderer *)

Lemma find_edge_first_entry (g : AdjacencyList) (a b : Z) :
  find_edge g a b
  = (λ e, (edge_miles e, edge_description e)) <$> first_entry_to g a b.
Proof.
  unfold find_edge, first_entry_to, neighbors.
  induction (dict_get g a []) as [| [[v w] d] l IH]; simpl; [done |].
  unfold edge_to at 1. simpl. destruct (decide (v = b)) as [-> | Hne].
  - by rewrite bool_decide_eq_true_2.
  - by rewrite bool_decide_eq_false_2.
Qed.

Lemma render_loop_segments (g : AdjacencyList) (id_to_name : gmap Z string)
    (rest pre : list Z) (total : Q) (out : list Printed) :
  ∃ out',
    render_loop g id_to_name (pre ++ rest)
      (seq (length pre) (length rest - 1)) total out
    = Some (foldl Qplus total (matched_segments g rest), out ++ out') ∧
    length (filter is_step_line out') = length (matched_segments g rest).
Proof.
  revert pre total out.
  induction rest as [| a rest IH]; intros pre total out.
  { exists []. simpl. by rewrite !app_nil_r. }
  destruct rest as [| b rest].
  { exists []. simpl. by rewrite !app_nil_r. }
  replace (length (a :: b :: rest) - 1)%nat with (S (length rest)) by (simpl; lia).
  cbn [seq render_loop].
  assert ((pre ++ a :: b :: rest) !! length pre = Some a) as ->.
  { by rewrite list_lookup_middle. }
  assert ((pre ++ a :: b :: rest) !! (length pre + 1)%nat = Some b) as ->.
  { rewrite (cons_middle a pre), app_assoc.
    apply list_lookup_middle. rewrite length_app. simpl. lia. }
  specialize (IH (pre ++ [a])).
  rewrite <- app_assoc, length_app in IH. simpl in IH.
  replace (length pre + 1)%nat with (S (length pre)) in * by lia.
  replace (length rest - 0)%nat with (length rest) in IH by lia.
  cbn [matched_segments]. rewrite find_edge_first_entry.
  destruct (first_entry_to g a b) as [e |]; simpl.
  - destruct (IH (total + edge_miles e)
                (out ++ [StepLine (S (length pre)) a
                           (dict_get id_to_name a "null"%string) b
                           (dict_get id_to_name b "null"%string)
                           (edge_description e) (edge_miles e)]))
      as (out' & -> & Hlen).
    eexists (_ :: out'). rewrite <- app_assoc. split; [done |].
    rewrite filter_cons. simpl. by rewrite Hlen.
  - destruct (IH total (out ++ [Warning a b])) as (out' & -> & Hlen).
    eexists (_ :: out'). rewrite <- app_assoc. split; [done |].
    rewrite filter_cons. simpl. by rewrite Hlen.
Qed.

(** ** Components *)

Lemma closed_under_roads_separates (g : AdjacencyList) (A : list Z) (s t : Z) :
  closed_under_roads g A = true → s ∈ A → t ∉ A → ¬ connected g s t.
Proof.
  intros Hclosed Hs Ht Hconn.
  assert (∀ x y, linked g x y → (x ∈ A ↔ y ∈ A)) as Hstep.
  { intros x y (e & He & <-). unfold neighbors, dict_get in He.
    destruct (g !! x) as [l |] eqn:Hx; [| by apply elem_of_nil in He].
    apply elem_of_map_to_list in Hx.
    unfold closed_under_roads in Hclosed.
    rewrite forallb_forall in Hclosed.
    specialize (Hclosed (x, l)). rewrite <- list_elem_of_In in Hclosed.
    specialize (Hclosed Hx). simpl in Hclosed.
    rewrite forallb_forall in Hclosed. specialize (Hclosed e).
    rewrite <- list_elem_of_In in Hclosed. specialize (Hclosed He).
    apply Bool.eqb_prop in Hclosed.
    split; intros Hin.
    - rewrite (bool_decide_eq_true_2 _ Hin) in Hclosed.
      symmetry in Hclosed. by apply bool_decide_eq_true_1 in Hclosed.
    - rewrite (bool_decide_eq_true_2 _ Hin) in Hclosed.
      by apply bool_decide_eq_true_1 in Hclosed. }
  apply Ht. unfold connected, rtsc in Hconn.
  induction Hconn as [x | x y z [Hxy | Hyx] _ IH]; [done | |].
  - apply IH; [by apply (Hstep x y) | done].
  - apply IH; [by apply (Hstep y x) | done].
Qed.

(** ** Following the predecessor links *)

Lemma follow_later (prev : gmap Z Z) (settled : list Z) :
  ranked prev settled →
  ∀ n v x l1 l2, settled = l1 ++ v :: l2 → follow prev (S n) v = Some x →
    ∃ l1' l2', settled = l1' ++ x :: l2' ∧ (length l2' < length l2)%nat.
Proof.
  intros Hrank. induction n as [| n IH]; intros v x l1 l2 Hs Hf;
    simpl in Hf; destruct (prev !! v) as [u |] eqn:Hv; try done;
    destruct (Hrank v u Hv) as [_ Hlater];
    specialize (Hlater l1 l2 Hs);
    apply list_elem_of_split in Hlater as (l3 & l4 & ->);
    assert (settled = (l1 ++ v :: l3) ++ u :: l4) as Hs'
      by (by rewrite Hs, <- app_assoc).
  - injection Hf as <-. exists (l1 ++ v :: l3), l4. split; [done |].
    rewrite length_app. simpl. lia.
  - destruct (IH u x _ _ Hs' Hf) as (l1' & l2' & Hs'' & Hlen).
    exists l1', l2'. split; [done |]. rewrite length_app. simpl. lia.
Qed.

Lemma follow_target_settled (prev : gmap Z Z) (settled : list Z) :
  ranked prev settled →
  ∀ n v x, follow prev (S n) v = Some x → x ∈ settled.
Proof.
  intros Hrank. induction n as [| n IH]; intros v x Hf; simpl in Hf;
    destruct (prev !! v) as [u |] eqn:Hv; try done.
  - injection Hf as <-. by destruct (Hrank v u Hv).
  - by apply (IH u).
Qed.

Lemma ranked_acyclic (prev : gmap Z Z) (settled : list Z) (n : nat) (v : Z) :
  ranked prev settled → follow prev (S n) v ≠ Some v.
Proof.
  intros Hrank Hcycle.
  pose proof (follow_target_settled prev settled Hrank n v v Hcycle) as Hin.
  apply list_elem_of_split in Hin as (l1 & l2 & Hs).
  remember (length l2) as k eqn:Hk.
  revert l1 l2 Hs Hk. induction k as [k IH] using lt_wf_ind.
  intros l1 l2 Hs Hk.
  destruct (follow_later prev settled Hrank n v v l1 l2 Hs Hcycle)
    as (l1' & l2' & Hs' & Hlen).
  apply (IH (length l2') ltac:(lia) l1' l2' Hs' eq_refl).
Qed.

(** ** The functions on the sample sources *)

Example sample_graph_neighbors :
  neighbors sample_graph 2
  = [(1%Z, 112.5, "Route128"%string); (3%Z, 4.5, "Main St, north"%string)].
Proof. vm_compute. reflexivity. Qed.

Example sample_run_distance :
  ∃ d, sample_run.1 !! 3%Z = Some d ∧ d == 117.
Proof. eexists. split; [vm_compute; reflexivity | vm_compute; reflexivity]. Qed.

Example sample_run_path :
  reconstruct_path 10 sample_run.2 1 3 = Some (Some [1; 2; 3]%Z).
Proof. vm_compute. reflexivity. Qed.

Example sample_run_unreachable :
  reconstruct_path 10 sample_run.2 1 5 = Some None.
Proof. vm_compute. reflexivity. Qed.

Example sample_render :
  ∃ total out,
    render sample_graph ∅ [1; 2; 3]%Z = Some (total, out) ∧
    total == 117 ∧ length out = 2%nat.
Proof.
  eexists _, _. split; [vm_compute; reflexivity |].
  split; [vm_compute; reflexivity | reflexivity].
Qed.

Example broken_roads_raise :
  load_graph Decimal.int Decimal.float (Some broken_roads) = Raise ValueError.
Proof. vm_compute. reflexivity. Qed.

Example missing_file_raises :
  load_graph Decimal.int Decimal.float None = Raise FileNotFoundError.
Proof. reflexivity. Qed.

(** * The claims *)



(** C2. For a valid places source, [load_places] returns two mappings:
    each identifier is bound, once, to the name of the first record that
    carries it, and each name to the identifier of the first record that
    carries it, whatever duplicates follow. *)
Theorem load_places_first_seen (py_int : string → option Z)
    (lines : list string) (records : list (Z * string)) :
  parsed_places py_int lines = Ok records →
  ∃ name_to_id id_to_name,
    load_places py_int (Some lines) = Ok (name_to_id, id_to_name) ∧
    (∀ i, id_to_name !! i = first_with i records) ∧
    (∀ n, name_to_id !! n = first_with n (prod_swap <$> records)) ∧
    NoDup (map_to_list id_to_name).*1 ∧ NoDup (map_to_list name_to_id).*1.
Proof.
  intros Hrec. unfold load_places. rewrite load_places_loop_records, Hrec.
  fold (record_places (∅, ∅) records).
  destruct (record_places_lookup records ∅ ∅) as [Hid Hname].
  destruct (record_places (∅, ∅) records) as [name_to_id id_to_name].
  exists name_to_id, id_to_name. split_and!; [done | | | |].
  - intros i. rewrite Hid. by rewrite lookup_empty.
  - intros n. rewrite Hname. by rewrite lookup_empty.
  - apply NoDup_fst_map_to_list.
  - apply NoDup_fst_map_to_list.
Qed.

Lemma load_places_first_seen_witness :
  parsed_places Decimal.int sample_places = Ok sample_place_records ∧
  ∃ name_to_id id_to_name,
    load_places Decimal.int (Some sample_places) = Ok (name_to_id, id_to_name) ∧
    id_to_name !! 1%Z = Some "Lexington"%string ∧
    name_to_id !! "Columbia"%string = Some 2%Z.
Proof.
  assert (parsed_places Decimal.int sample_places = Ok sample_place_records)
    as Hrec by (vm_compute; reflexivity).
  split; [exact Hrec |].
  destruct (load_places_first_seen Decimal.int sample_places
              sample_place_records Hrec)
    as (name_to_id & id_to_name & Hload & Hid & Hname & _).
  exists name_to_id, id_to_name. split; [exact Hload |]. split.
  - rewrite Hid. reflexivity.
  - rewrite Hname. reflexivity.
Defined.

(** C3. The adjacency structure loaded from a valid roads source is
    symmetric: every entry (v, w, d) of [u]'s list has its mirror (u, w, d)
    in [v]'s list.  Each record adds its two entries at the end of the
    lists and replaces nothing: an entry occurs as often as the records
    give it, and the lists after a prefix of the source are prefixes of the
    final ones. *)
Theorem load_graph_symmetric (py_int : string → option Z)
    (py_float : string → option Q) (lines : list string) (g : AdjacencyList) :
  load_graph py_int py_float (Some lines) = Ok g →
  ∃ roads, parsed_roads py_int py_float lines = Ok roads ∧
    (∀ u v w d, (v, w, d) ∈ neighbors g u → (u, w, d) ∈ neighbors g v) ∧
    (∀ u v w d,
       occurrences (v, w, d) (neighbors g u)
       = (occurrences (u, v, w, d) roads + occurrences (v, u, w, d) roads)%nat) ∧
    (∀ l1 l2 g1, lines = l1 ++ l2 →
       load_graph py_int py_float (Some l1) = Ok g1 →
       ∀ u, neighbors g1 u `prefix_of` neighbors g u).
Proof.
  simpl. intros Hload. pose proof Hload as Hload'.
  rewrite load_graph_loop_records in Hload.
  destruct (parsed_roads py_int py_float lines) as [roads | e]; [| done].
  injection Hload as <-. exists roads.
  assert (∀ u v w d,
    occurrences (v, w, d) (neighbors (record_roads ∅ roads) u)
    = (occurrences (u, v, w, d) roads + occurrences (v, u, w, d) roads)%nat)
    as Hocc.
  { intros u v w d. rewrite record_roads_occurrences, neighbors_empty.
    unfold occurrences at 1. simpl. lia. }
  split_and!; [done | | done |].
  - intros u v w d Hin. apply occurrences_pos. apply occurrences_pos in Hin.
    rewrite Hocc in *. lia.
  - intros l1 l2 g1 -> Hg1 u. simpl in Hg1.
    rewrite load_graph_loop_app, Hg1, load_graph_loop_records in Hload'.
    destruct (parsed_roads py_int py_float l2) as [roads2 | e]; [| done].
    injection Hload' as <-. apply record_roads_prefix.
Qed.

Lemma load_graph_symmetric_witness :
  load_graph Decimal.int Decimal.float (Some parallel_roads) = Ok parallel_graph ∧
  ∃ roads,
    parsed_roads Decimal.int Decimal.float parallel_roads = Ok roads ∧
    (∀ u v w d, (v, w, d) ∈ neighbors parallel_graph u →
                (u, w, d) ∈ neighbors parallel_graph v) ∧
    (∀ u v w d,
       occurrences (v, w, d) (neighbors parallel_graph u)
       = (occurrences (u, v, w, d) roads + occurrences (v, u, w, d) roads)%nat) ∧
    (∀ l1 l2 g1, parallel_roads = l1 ++ l2 →
       load_graph Decimal.int Decimal.float (Some l1) = Ok g1 →
       ∀ u, neighbors g1 u `prefix_of` neighbors parallel_graph u).
Proof.
  assert (load_graph Decimal.int Decimal.float (Some parallel_roads)
          = Ok parallel_graph) as Hload by (vm_compute; reflexivity).
  split; [exact Hload |].
  exact (load_graph_symmetric Decimal.int Decimal.float parallel_roads
           parallel_graph Hload).
Defined.

(** C4. When the source and the target lie in different connected
    components of a graph, every run of the engine that returns, returns a
    distance map and a predecessor map without an entry for the target, and
    the reconstructor returns [None] (no path) on that predecessor map.  On
    a road graph (non-negative distances) the engine does return. *)
Theorem dijkstra_unreachable_target (g : AdjacencyList) (s t : Z) :
  ¬ connected g s t →
  (∀ fuel g' dist prev,
     dijkstra fuel g s t = Some (g', (dist, prev)) →
     dist !! t = None ∧ prev !! t = None ∧
     ∀ fuel', reconstruct_path fuel' prev s t = Some None) ∧
  (nonneg_weights g →
   ∃ dist prev, ∀ fuel, (enough_fuel g <= fuel)%nat →
     dijkstra fuel g s t = Some (g, (dist, prev))).
Proof.
  intros Hsep. split.
  - intros fuel g' dist prev (st & Hrun & [= -> ->])%dijkstra_unfold.
    pose proof (dijkstra_loop_Reach _ _ _ _ _ _ _ (Reach_initial g s) Hrun)
      as [H1 H2 H3].
    assert (dist st !! t = None) as Hdist.
    { destruct (dist st !! t) as [d |] eqn:Hd; [| done].
      destruct Hsep. apply rtc_rtsc_rl. by eapply H1. }
    assert (prev st !! t = None) as Hprev.
    { destruct (prev st !! t) as [u |] eqn:Hu; [| done].
      destruct (H3 t u Hu) as [d Hd]. congruence. }
    split_and!; [done | done |].
    intros fuel'. unfold reconstruct_path. rewrite decide_False.
    + rewrite decide_False; [done |]. rewrite Hprev. by intros [? ?].
    + intros ->. apply Hsep. apply rtc_refl.
  - intros Hg.
    destruct (dijkstra_result g s t Hg) as (st & _ & Hrun & _).
    by exists (dist st), (prev st).
Qed.

Lemma dijkstra_unreachable_target_witness :
  (¬ connected sample_graph 1%Z 4%Z ∧ nonneg_weights sample_graph) ∧
  ∃ dist prev,
    dijkstra (enough_fuel sample_graph) sample_graph 1 4
    = Some (sample_graph, (dist, prev)) ∧
    dist !! 4%Z = None ∧ prev !! 4%Z = None ∧
    ∀ fuel', reconstruct_path fuel' prev 1 4 = Some None.
Proof.
  assert (nonneg_weights sample_graph) as Hg.
  { apply (load_graph_nonneg Decimal.int Decimal.float sample_roads).
    vm_compute; reflexivity. }
  assert (¬ connected sample_graph 1%Z 4%Z) as Hsep.
  { apply (closed_under_roads_separates sample_graph [1; 2; 3]%Z).
    - vm_compute; reflexivity.
    - apply list_elem_of_here.
    - intros Hin. repeat (apply elem_of_cons in Hin as [Hin | Hin]; [lia |]).
      by apply elem_of_nil in Hin. }
  split; [split; [exact Hsep | exact Hg] |].
  destruct (dijkstra_unreachable_target sample_graph 1 4 Hsep) as [Hsafe Hlive].
  destruct (Hlive Hg) as (dist & prev & Hrun).
  specialize (Hrun (enough_fuel sample_graph) (le_n _)).
  exists dist, prev. split; [exact Hrun |].
  exact (Hsafe _ _ _ _ Hrun).
Defined.

(** C5. With the source as target the engine returns the distance map that
    binds the source to 0, and an empty predecessor map, on which the
    reconstructor returns the one-element path; this holds for every node,
    in particular for those that are keys of the graph. *)
Theorem dijkstra_source_is_target (g : AdjacencyList) (a : Z) (fuel fuel' : nat) :
  dijkstra (S fuel) g a a = Some (g, ({[a := 0]}, ∅)) ∧
  ({[a := 0]} : gmap Z Q) !! a = Some 0 ∧
  reconstruct_path fuel' ∅ a a = Some (Some [a]).
Proof.
  split_and!.
  - unfold dijkstra. simpl. rewrite decide_True by done. simpl.
    rewrite lookup_singleton_eq. simpl. by rewrite decide_True.
  - apply lookup_singleton_eq.
  - unfold reconstruct_path. by rewrite decide_True.
Qed.

(** C6. A roads source with a line that is not blank and whose first field
    does not parse as an integer makes [load_graph] raise [ValueError]: no
    adjacency structure is returned, whatever well-formed lines precede. *)
Theorem load_graph_bad_first_field (py_int : string → option Z)
    (py_float : string → option Q) (lines : list string) (raw_line : string) :
  raw_line ∈ lines →
  is_blank raw_line = false →
  py_int (first_field raw_line) = None →
  load_graph py_int py_float (Some lines) = Raise ValueError.
Proof.
  intros Hin Hblank Hbad. simpl. generalize (∅ : AdjacencyList).
  induction lines as [| l lines IH]; intros g; [by apply elem_of_nil in Hin |].
  simpl. destruct (parse_road_line py_int py_float l) as [[r |] | e] eqn:Hl.
  - apply elem_of_cons in Hin as [-> | Hin]; [| by apply IH].
    rewrite parse_road_line_bad in Hl by done. done.
  - apply elem_of_cons in Hin as [-> | Hin]; [| by apply IH].
    rewrite parse_road_line_bad in Hl by done. done.
  - by apply parse_road_line_error in Hl as ->.
Qed.

Lemma load_graph_bad_first_field_witness :
  ("abc,5,10,MainSt"%string ∈ broken_roads ∧
   is_blank "abc,5,10,MainSt" = false ∧
   Decimal.int (first_field "abc,5,10,MainSt") = None) ∧
  load_graph Decimal.int Decimal.float (Some broken_roads) = Raise ValueError.
Proof.
  assert ("abc,5,10,MainSt"%string ∈ broken_roads) as Hin.
  { unfold broken_roads. apply list_elem_of_further, list_elem_of_here. }
  split; [split; [exact Hin | split; reflexivity] |].
  apply (load_graph_bad_first_field Decimal.int Decimal.float broken_roads
           "abc,5,10,MainSt" Hin); reflexivity.
Defined.

(** C7. The engine does not change the graph it is given, and a second run
    on the graph the first run leaves, with the same source and target,
    returns the same distance map and the same predecessor map. *)
Theorem dijkstra_idempotent (g g1 g2 : AdjacencyList) (s t : Z)
    (fuel1 fuel2 : nat) (r1 r2 : gmap Z Q * gmap Z Z) :
  dijkstra fuel1 g s t = Some (g1, r1) →
  dijkstra fuel2 g1 s t = Some (g2, r2) →
  g1 = g ∧ g2 = g ∧ r2 = r1.
Proof.
  intros (st1 & Hrun1 & ->)%dijkstra_unfold.
  pose proof (dijkstra_loop_graph _ _ _ _ _ _ Hrun1) as ->.
  intros (st2 & Hrun2 & ->)%dijkstra_unfold.
  pose proof (dijkstra_loop_graph _ _ _ _ _ _ Hrun2) as ->.
  apply dijkstra_loop_more_fuel with (m := (fuel1 `max` fuel2)%nat) in Hrun1;
    [| lia].
  apply dijkstra_loop_more_fuel with (m := (fuel1 `max` fuel2)%nat) in Hrun2;
    [| lia].
  split_and!; [done | done | congruence].
Qed.

Lemma dijkstra_idempotent_witness :
  (dijkstra 50 sample_graph 1 3 = Some (sample_graph, sample_run) ∧
   dijkstra 60 sample_graph 1 3 = Some (sample_graph, sample_run)) ∧
  (sample_graph = sample_graph ∧ sample_graph = sample_graph ∧
   sample_run = sample_run).
Proof.
  assert (dijkstra 50 sample_graph 1 3 = Some (sample_graph, sample_run)) as H1
    by (vm_compute; reflexivity).
  assert (dijkstra 60 sample_graph 1 3 = Some (sample_graph, sample_run)) as H2
    by (vm_compute; reflexivity).
  split; [split; [exact H1 | exact H2] |].
  exact (dijkstra_idempotent sample_graph sample_graph sample_graph 1 3 50 60
           sample_run sample_run H1 H2).
Defined.

(** C8. The renderer's total is the sum of the segment distances of the
    steps that have an entry, the entry of a step being the first one of
    the from-node's list that leads to the to-node, and it prints one step
    line per such step.  On a path [A, B, C] whose two steps have entries of
    3.0 and 4.5 miles the total is 7.5 and two step lines are printed. *)
Theorem render_total_distance (g : AdjacencyList) (id_to_name : gmap Z string) :
  (∀ path, ∃ out,
     render g id_to_name path = Some (sum_miles (matched_segments g path), out) ∧
     length (filter is_step_line out) = length (matched_segments g path)) ∧
  (∀ A B C e1 e2,
     first_entry_to g A B = Some e1 → edge_miles e1 == 3 →
     first_entry_to g B C = Some e2 → edge_miles e2 == 4.5 →
     ∃ total out,
       render g id_to_name [A; B; C] = Some (total, out) ∧
       total == 7.5 ∧ length out = 2%nat ∧
       length (filter is_step_line out) = 2%nat).
Proof.
  split.
  - intros path. unfold render, sum_miles.
    destruct (render_loop_segments g id_to_name path [] 0 []) as (out & Hr & Hlen).
    exists out. simpl in Hr. by rewrite Hr.
  - intros A B C e1 e2 H1 Hw1 H2 Hw2. unfold render. simpl.
    rewrite !find_edge_first_entry, H1, H2. simpl.
    eexists _, _. split; [done |]. split; [lra | done].
Qed.

Lemma render_total_distance_witness :
  (first_entry_to abc_graph 1 2 = Some (2%Z, 3.0, "First"%string) ∧
   edge_miles (2%Z, 3.0, "First"%string) == 3 ∧
   first_entry_to abc_graph 2 3 = Some (3%Z, 4.5, "Second"%string) ∧
   edge_miles (3%Z, 4.5, "Second"%string) == 4.5) ∧
  ∃ total out,
    render abc_graph ∅ [1; 2; 3]%Z = Some (total, out) ∧
    total == 7.5 ∧ length out = 2%nat ∧
    length (filter is_step_line out) = 2%nat.
Proof.
  assert (first_entry_to abc_graph 1 2 = Some (2%Z, 3.0, "First"%string)) as H1
    by (vm_compute; reflexivity).
  assert (first_entry_to abc_graph 2 3 = Some (3%Z, 4.5, "Second"%string)) as H2
    by (vm_compute; reflexivity).
  assert (edge_miles (2%Z, 3.0, "First"%string) == 3) as Hw1
    by (vm_compute; reflexivity).
  assert (edge_miles (3%Z, 4.5, "Second"%string) == 4.5) as Hw2
    by (vm_compute; reflexivity).
  split; [split_and!; assumption |].
  exact (proj2 (render_total_distance abc_graph ∅) 1%Z 2%Z 3%Z _ _ H1 Hw1 H2 Hw2).
Defined.

(** C9. When the source is not a key of the adjacency structure, the
    engine returns the distance map with the single entry that binds the
    source to 0, and the empty predecessor map. *)
Theorem dijkstra_source_without_roads (g : AdjacencyList) (s t : Z) (fuel : nat) :
  g !! s = None → s ≠ t →
  dijkstra (S (S fuel)) g s t = Some (g, ({[s := 0]}, ∅)).
Proof.
  intros Hs Hst. unfold dijkstra. simpl.
  rewrite decide_True by done. simpl. rewrite lookup_singleton_eq. simpl.
  rewrite decide_False by done. unfold dict_get. rewrite Hs. done.
Qed.

Lemma dijkstra_source_without_roads_witness :
  (sample_graph !! 9%Z = None ∧ 9%Z ≠ 1%Z) ∧
  dijkstra 2 sample_graph 9 1 = Some (sample_graph, ({[9%Z := 0]}, ∅)).
Proof.
  assert (sample_graph !! 9%Z = None) as Hs by (vm_compute; reflexivity).
  assert (9%Z ≠ 1%Z) as Hne by lia.
  split; [split; [exact Hs | exact Hne] |].
  exact (dijkstra_source_without_roads sample_graph 9 1 0 Hs Hne).
Defined.

(** C10. On a graph of non-negative weights the engine returns, and on the
    predecessor map it returns the backward walk of the reconstructor ends
    for every source and target: enough fuel gives its result.  The
    predecessor links form no cycle: no node is reached from itself by one
    link or more. *)
Theorem reconstruct_path_terminates (g : AdjacencyList) (s t : Z) :
  nonneg_weights g →
  ∃ dist prev,
    (∀ fuel, (enough_fuel g <= fuel)%nat →
       dijkstra fuel g s t = Some (g, (dist, prev))) ∧
    (∀ fuel g' r, dijkstra fuel g s t = Some (g', r) → r = (dist, prev)) ∧
    (∀ source target, ∃ n r, ∀ m, (n <= m)%nat →
       reconstruct_path m prev source target = Some r) ∧
    (∀ n v, follow prev (S n) v ≠ Some v).
Proof.
  intros Hg.
  destruct (dijkstra_result g s t Hg) as (st & Hpost & Hrun & Hany).
  destruct (Post_ranked _ _ _ _ Hpost) as (settled & Hrank).
  exists (dist st), (prev st). split_and!; [done | | |].
  - intros fuel g' r Hr. by destruct (Hany fuel g' r Hr).
  - intros source target.
    destruct (reconstruct_path_ranked (prev st) settled source target Hrank)
      as (r & Hr).
    by exists (S (length settled)), r.
  - intros n v. by apply ranked_acyclic with settled.
Qed.

Lemma reconstruct_path_terminates_witness :
  nonneg_weights sample_graph ∧
  ∃ dist prev,
    (∀ fuel, (enough_fuel sample_graph <= fuel)%nat →
       dijkstra fuel sample_graph 1 3 = Some (sample_graph, (dist, prev))) ∧
    (∀ fuel g' r, dijkstra fuel sample_graph 1 3 = Some (g', r) →
       r = (dist, prev)) ∧
    (∀ source target, ∃ n r, ∀ m, (n <= m)%nat →
       reconstruct_path m prev source target = Some r) ∧
    (∀ n v, follow prev (S n) v ≠ Some v).
Proof.
  assert (nonneg_weights sample_graph) as Hg.
  { apply (load_graph_nonneg Decimal.int Decimal.float sample_roads).
    vm_compute; reflexivity. }
  split; [exact Hg |].
  exact (reconstruct_path_terminates sample_graph 1 3 Hg).
Defined.

(** * Further properties of the loaders *)

Lemma not_Exists_iff_Forall {A} (P : A → Prop) (l : list A) :
  ¬ Exists P l ↔ Forall (λ x, ¬ P x) l.
Proof.
  induction l as [| x l IH].
  - split; [constructor | by intros _ ?%Exists_nil].
  - rewrite Exists_cons, Forall_cons, <- IH. tauto.
Qed.

Section LoaderOutcomes.

Variable py_int : string → option Z.
Variable py_float : string → option Q.

Lemma is_empty_true (s : string) : Text.is_empty s = true ↔ s = EmptyString.
Proof. by destruct s. Qed.

Lemma parse_place_line_Raise (raw_line : string) :
  (∃ e, parse_place_line py_int raw_line = Raise e) ↔
  malformed_place py_int raw_line.
Proof.
  unfold parse_place_line, malformed_place, is_blank.
  destruct (Text.is_empty (Text.strip raw_line)).
  { split; [by intros [e ?] | by intros [? _]]. }
  destruct (Text.split comma 1 (Text.strip raw_line))
    as [| p0 [| p1 [| p2 ps]]]; try (split; [done | by eexists]).
  destruct (Text.is_empty (Text.strip p0)) eqn:He.
  { apply is_empty_true in He. split; [by intros; split; [| left] | by eexists]. }
  assert (Text.strip p0 ≠ EmptyString) as Hne.
  { intros Heq. apply is_empty_true in Heq. congruence. }
  destruct (py_int (Text.strip p0)) as [place_id |].
  - split; [by intros [e ?] | by intros [_ [? | ?]]].
  - split; [by intros; split; [| right] | by eexists].
Qed.

Lemma parse_place_line_error (raw_line : string) (e : error) :
  parse_place_line py_int raw_line = Raise e → e = ValueError.
Proof.
  unfold parse_place_line.
  destruct (Text.is_empty (Text.strip raw_line)); [done |].
  destruct (Text.split comma 1 (Text.strip raw_line))
    as [| p0 [| p1 [| p2 ps]]]; try congruence.
  destruct (Text.is_empty (Text.strip p0)); [congruence |].
  destruct (py_int (Text.strip p0)); congruence.
Qed.

Lemma parse_road_line_Raise (raw_line : string) :
  (∃ e, parse_road_line py_int py_float raw_line = Raise e) ↔
  malformed_road py_int py_float raw_line.
Proof.
  unfold parse_road_line, malformed_road, is_blank.
  destruct (Text.is_empty (Text.strip raw_line)).
  { split; [by intros [e ?] | by intros [? _]]. }
  destruct (Text.split comma 3 (Text.strip raw_line))
    as [| p0 [| p1 [| p2 [| p3 [| p4 ps]]]]]; try (split; [done | by eexists]).
  destruct (py_int (Text.strip p0)) as [left_id |];
    [| split; [by intros; split; [| left] | by eexists]].
  destruct (py_int (Text.strip p1)) as [right_id |];
    [| split; [by intros; split; [| right; left] | by eexists]].
  destruct (py_float (Text.strip p2)) as [miles |];
    [| split; [by intros; split; [| right; right] | by eexists]].
  destruct (Qltb miles 0) eqn:Hm.
  - apply Qltb_lt in Hm. split; [by intros; split; [| right; right] | by eexists].
  - apply Qltb_ge in Hm. split; [by intros [e ?] |].
    intros [_ [? | [? | Hneg]]]; [done | done | lra].
Qed.

Lemma parsed_places_Raise (lines : list string) :
  parsed_places py_int lines = Raise ValueError ↔
  Exists (malformed_place py_int) lines.
Proof.
  induction lines as [| raw_line rest IH]; simpl.
  - split; [done | by intros ?%Exists_nil].
  - rewrite Exists_cons, <- IH, <- parse_place_line_Raise.
    destruct (parse_place_line py_int raw_line) as [[r |] | e] eqn:Hl.
    + destruct (parsed_places py_int rest) as [records | e].
      * split; [done | by intros [[e ?] | ?]].
      * split; [by right | by intros [[e0 ?] | ?]].
    + split; [by right | by intros [[e ?] | ?]].
    + apply parse_place_line_error in Hl as ->.
      split; [intros _; left; by eexists | done].
Qed.

Lemma parsed_roads_Raise (lines : list string) :
  parsed_roads py_int py_float lines = Raise ValueError ↔
  Exists (malformed_road py_int py_float) lines.
Proof.
  induction lines as [| raw_line rest IH]; simpl.
  - split; [done | by intros ?%Exists_nil].
  - rewrite Exists_cons, <- IH, <- parse_road_line_Raise.
    destruct (parse_road_line py_int py_float raw_line) as [[r |] | e] eqn:Hl.
    + destruct (parsed_roads py_int py_float rest) as [records | e].
      * split; [done | by intros [[e ?] | ?]].
      * split; [by right | by intros [[e0 ?] | ?]].
    + split; [by right | by intros [[e ?] | ?]].
    + apply parse_road_line_error in Hl as ->.
      split; [intros _; left; by eexists | done].
Qed.

Lemma parsed_places_error (lines : list string) (e : error) :
  parsed_places py_int lines = Raise e → e = ValueError.
Proof.
  induction lines as [| raw_line rest IH]; simpl; [done |].
  destruct (parse_place_line py_int raw_line) as [[r |] | e'] eqn:Hl.
  - destruct (parsed_places py_int rest); [done |]. intros [= <-]. by apply IH.
  - done.
  - intros [= <-]. by eapply parse_place_line_error.
Qed.

Lemma parsed_roads_error (lines : list string) (e : error) :
  parsed_roads py_int py_float lines = Raise e → e = ValueError.
Proof.
  induction lines as [| raw_line rest IH]; simpl; [done |].
  destruct (parse_road_line py_int py_float raw_line) as [[r |] | e'] eqn:Hl.
  - destruct (parsed_roads py_int py_float rest); [done |].
    intros [= <-]. by apply IH.
  - done.
  - intros [= <-]. by eapply parse_road_line_error.
Qed.

(** X1. [load_graph] raises [ValueError] exactly when some line of the
    source is malformed (too few fields, an identifier that is not an
    integer, a distance that is not a number or is negative), and returns a
    graph exactly when no line is; [FileNotFoundError] is raised exactly
    when the file is missing. *)
Theorem load_graph_outcome (road_file : source_file) :
  (load_graph py_int py_float road_file = Raise FileNotFoundError ↔
   road_file = None) ∧
  (load_graph py_int py_float road_file = Raise ValueError ↔
   ∃ lines, road_file = Some lines ∧
     Exists (malformed_road py_int py_float) lines) ∧
  ((∃ g, load_graph py_int py_float road_file = Ok g) ↔
   ∃ lines, road_file = Some lines ∧
     Forall (λ l, ¬ malformed_road py_int py_float l) lines).
Proof.
  destruct road_file as [lines |]; simpl.
  - rewrite load_graph_loop_records.
    pose proof (parsed_roads_Raise lines) as Hraise.
    destruct (parsed_roads py_int py_float lines) as [roads | e] eqn:Hp.
    + assert (¬ Exists (malformed_road py_int py_float) lines) as Hnone.
      { intros Hex. apply Hraise in Hex. done. }
      split_and!; [done | | ].
      * split; [done |]. intros (l & [= <-] & Hex). done.
      * split; [| by eexists]. intros _. exists lines. split; [done |].
        by apply not_Exists_iff_Forall.
    + apply parsed_roads_error in Hp as Hv. subst e.
      split_and!; [done | |].
      * split; [| done]. intros _. exists lines. split; [done |]. by apply Hraise.
      * split; [by intros [g ?] |]. intros (l & [= <-] & Hall).
        apply not_Exists_iff_Forall in Hall. destruct Hall. by apply Hraise.
  - split_and!; [done | |].
    + split; [done | by intros (l & ? & _)].
    + split; [by intros [g ?] | by intros (l & ? & _)].
Qed.

(** X2. [load_places] raises [ValueError] exactly when some line of the
    source is malformed (no comma, an empty identifier or one that is not
    an integer), returns its two mappings exactly when no line is, and
    raises [FileNotFoundError] exactly when the file is missing. *)
Theorem load_places_outcome (place_file : source_file) :
  (load_places py_int place_file = Raise FileNotFoundError ↔
   place_file = None) ∧
  (load_places py_int place_file = Raise ValueError ↔
   ∃ lines, place_file = Some lines ∧ Exists (malformed_place py_int) lines) ∧
  ((∃ maps, load_places py_int place_file = Ok maps) ↔
   ∃ lines, place_file = Some lines ∧
     Forall (λ l, ¬ malformed_place py_int l) lines).
Proof.
  destruct place_file as [lines |]; simpl.
  - rewrite load_places_loop_records.
    pose proof (parsed_places_Raise lines) as Hraise.
    destruct (parsed_places py_int lines) as [records | e] eqn:Hp.
    + assert (¬ Exists (malformed_place py_int) lines) as Hnone.
      { intros Hex. apply Hraise in Hex. done. }
      split_and!; [done | | ].
      * split; [done |]. intros (l & [= <-] & Hex). done.
      * split; [| by eexists]. intros _. exists lines. split; [done |].
        by apply not_Exists_iff_Forall.
    + apply parsed_places_error in Hp as Hv. subst e.
      split_and!; [done | |].
      * split; [| done]. intros _. exists lines. split; [done |]. by apply Hraise.
      * split; [by intros [g ?] |]. intros (l & [= <-] & Hall).
        apply not_Exists_iff_Forall in Hall. destruct Hall. by apply Hraise.
  - split_and!; [done | |].
    + split; [done | by intros (l & ? & _)].
    + split; [by intros [g ?] | by intros (l & ? & _)].
Qed.

End LoaderOutcomes.


Lemma first_with_Some {K V} `{EqDecision K} (k : K) (v : V)
    (records : list (K * V)) :
  first_with k records = Some v → (k, v) ∈ records.
Proof.
  induction records as [| [k' v'] records IH]; simpl; [done |].
  destruct (decide (k' = k)) as [-> | Hne].
  - intros [= ->]. apply list_elem_of_here.
  - intros Hf. by apply list_elem_of_further, IH.
Qed.

Lemma first_with_is_Some {K V} `{EqDecision K} (k : K) (v : V)
    (records : list (K * V)) :
  (k, v) ∈ records → is_Some (first_with k records).
Proof.
  induction records as [| [k' v'] records IH]; [by intros ?%elem_of_nil |].
  simpl. intros Hin. destruct (decide (k' = k)); [by eexists |].
  apply IH. apply elem_of_cons in Hin as [[= <- <-] | Hin]; done.
Qed.

Lemma lookup_append_edge (k : Z) (e : Edge) (g : AdjacencyList) (u : Z) :
  append_edge k e g !! u
  = if decide (k = u) then Some (neighbors g u ++ [e]) else g !! u.
Proof.
  unfold append_edge, setdefault, neighbors, dict_get.
  destruct (g !! k) as [l |] eqn:Hk.
  - rewrite lookup_insert. destruct (decide (k = u)) as [<- | Hne]; [| done].
    by rewrite Hk.
  - rewrite lookup_insert. destruct (decide (k = u)) as [<- | Hne].
    + by rewrite Hk.
    + by rewrite lookup_insert_ne.
Qed.

Lemma directed_edge_count_insert (g : AdjacencyList) (k : Z) (l : list Edge) :
  (directed_edge_count (<[k := l]> g) + length (neighbors g k))%nat
  = (directed_edge_count g + length l)%nat.
Proof.
  unfold directed_edge_count, neighbors, dict_get.
  destruct (g !! k) as [l0 |] eqn:Hk.
  - rewrite <- (map_to_list_delete g k l0 Hk).
    rewrite <- insert_delete_eq.
    rewrite map_to_list_insert by apply lookup_delete_eq. simpl. lia.
  - rewrite map_to_list_insert by done. simpl. lia.
Qed.

Lemma append_edge_insert (k : Z) (e : Edge) (g : AdjacencyList) :
  append_edge k e g = <[k := neighbors g k ++ [e]]> g.
Proof.
  unfold append_edge, setdefault, neighbors, dict_get.
  destruct (g !! k) as [l |]; [done |]. by rewrite insert_insert_eq.
Qed.

Lemma directed_edge_count_append_edge (k : Z) (e : Edge) (g : AdjacencyList) :
  directed_edge_count (append_edge k e g) = S (directed_edge_count g).
Proof.
  rewrite append_edge_insert.
  pose proof (directed_edge_count_insert g k (neighbors g k ++ [e])) as H.
  rewrite length_app in H. simpl in H. lia.
Qed.

Lemma node_count_append_edge (k : Z) (e : Edge) (g : AdjacencyList) :
  (node_count g <= node_count (append_edge k e g) <= S (node_count g))%nat.
Proof.
  rewrite append_edge_insert. unfold node_count. rewrite map_size_insert.
  destruct (g !! k); simpl; lia.
Qed.

Lemma record_roads_counts (roads : list Road) (g : AdjacencyList) :
  directed_edge_count (record_roads g roads)
  = (directed_edge_count g + 2 * length roads)%nat ∧
  (node_count g <= node_count (record_roads g roads)
   <= node_count g + 2 * length roads)%nat.
Proof.
  revert g. induction roads as [| r roads IH]; intros g.
  - simpl. lia.
  - change (record_roads g (r :: roads))
      with (record_roads (record_road r g) roads).
    destruct (IH (record_road r g)) as [IH1 IH2].
    destruct r as [[[a b] m] c]. unfold record_road in *.
    rewrite !directed_edge_count_append_edge in IH1.
    pose proof (node_count_append_edge a (b, m, c) g).
    pose proof (node_count_append_edge b (a, m, c)
                  (append_edge a (b, m, c) g)).
    simpl. lia.
Qed.

Lemma record_roads_keys (roads : list Road) (g : AdjacencyList) :
  (∀ u l, g !! u = Some l → l ≠ []) →
  (∀ u l, record_roads g roads !! u = Some l → l ≠ []) ∧
  (∀ u, is_Some (record_roads g roads !! u) ↔
        is_Some (g !! u) ∨ ∃ r, r ∈ roads ∧ (r.1.1.1 = u ∨ r.1.1.2 = u)).
Proof.
  revert g. induction roads as [| r roads IH]; intros g Hg.
  - split; [done |]. intros u. simpl. split; [by left |].
    intros [? | (r & []%elem_of_nil & _)]. done.
  - change (record_roads g (r :: roads))
      with (record_roads (record_road r g) roads).
    destruct r as [[[a b] m] c].
    assert (∀ u, record_road (a, b, m, c) g !! u
                 = if decide (b = u)
                   then Some (neighbors (append_edge a (b, m, c) g) u
                              ++ [(a, m, c)])
                   else if decide (a = u)
                        then Some (neighbors g u ++ [(b, m, c)])
                        else g !! u) as Hlook.
    { intros u. unfold record_road. by rewrite !lookup_append_edge. }
    destruct (IH (record_road (a, b, m, c) g)) as [IH1 IH2].
    { intros u l. rewrite Hlook.
      destruct (decide (b = u)); [intros [= <-]; by destruct (neighbors _ _) |].
      destruct (decide (a = u)); [intros [= <-]; by destruct (neighbors _ _) |].
      apply Hg. }
    split; [done |]. intros u. rewrite IH2, Hlook. simpl. split.
    + intros [Hsome | (r & Hr & Hend)].
      * destruct (decide (b = u)) as [<- | Hb].
        { right. exists (a, b, m, c). split; [apply list_elem_of_here | by right]. }
        destruct (decide (a = u)) as [<- | Ha]; [| by left].
        right. exists (a, b, m, c). split; [apply list_elem_of_here | by left].
      * right. exists r. split; [by apply list_elem_of_further | done].
    + intros [Hsome | (r & [-> | Hr]%elem_of_cons & Hend)].
      * left. destruct (decide (b = u)); [by eexists |].
        destruct (decide (a = u)); [by eexists | done].
      * left. simpl in Hend. destruct Hend as [-> | ->].
        -- destruct (decide (b = u)); [by eexists |].
           rewrite decide_True by done. by eexists.
        -- rewrite decide_True by done. by eexists.
      * right. by exists r.
Qed.

Section LoaderShape.

Variable py_int : string → option Z.
Variable py_float : string → option Q.

Lemma parse_line_blank (raw_line : string) :
  is_blank raw_line = true →
  parse_place_line py_int raw_line = Ok None ∧
  parse_road_line py_int py_float raw_line = Ok None.
Proof.
  unfold is_blank, parse_place_line, parse_road_line. by intros ->.
Qed.

Lemma parsed_skip_blank (lines : list string) :
  parsed_places py_int (filter (λ l, is_blank l = false) lines)
  = parsed_places py_int lines ∧
  parsed_roads py_int py_float (filter (λ l, is_blank l = false) lines)
  = parsed_roads py_int py_float lines.
Proof.
  induction lines as [| raw_line rest [IH1 IH2]]; [done |].
  rewrite filter_cons. destruct (decide (is_blank raw_line = false)) as [Hb | Hb].
  - simpl. by rewrite IH1, IH2.
  - apply not_false_is_true in Hb.
    destruct (parse_line_blank raw_line Hb) as [H1 H2].
    simpl. by rewrite H1, H2.
Qed.

(** X3. Blank lines do not matter: both loaders return on a source what
    they return on the source without its blank lines. *)
Theorem loaders_skip_blank_lines (lines : list string) :
  load_graph py_int py_float (Some (filter (λ l, is_blank l = false) lines))
  = load_graph py_int py_float (Some lines) ∧
  load_places py_int (Some (filter (λ l, is_blank l = false) lines))
  = load_places py_int (Some lines).
Proof.
  destruct (parsed_skip_blank lines) as [H1 H2]. simpl.
  by rewrite !load_graph_loop_records, !load_places_loop_records, H1, H2.
Qed.

(** X4. In a loaded graph the keys are exactly the endpoints of the
    records of the source, and no key is bound to an empty list: a node is
    a key only through a road that touches it. *)
Theorem load_graph_keys (road_file : source_file) (g : AdjacencyList) :
  load_graph py_int py_float road_file = Ok g →
  ∃ lines roads,
    road_file = Some lines ∧ parsed_roads py_int py_float lines = Ok roads ∧
    (∀ u, is_Some (g !! u) ↔ ∃ r, r ∈ roads ∧ (r.1.1.1 = u ∨ r.1.1.2 = u)) ∧
    (∀ u l, g !! u = Some l → l ≠ []) ∧
    (g = ∅ ↔ roads = []).
Proof.
  destruct road_file as [lines |]; [| done]. simpl.
  rewrite load_graph_loop_records.
  destruct (parsed_roads py_int py_float lines) as [roads | e] eqn:Hp;
    [| done].
  intros [= <-]. exists lines, roads.
  destruct (record_roads_keys roads ∅) as [Hne Hkeys].
  { intros u l. by rewrite lookup_empty. }
  assert (∀ u, is_Some (record_roads ∅ roads !! u) ↔
               ∃ r, r ∈ roads ∧ (r.1.1.1 = u ∨ r.1.1.2 = u)) as Hkeys'.
  { intros u. rewrite Hkeys, lookup_empty. split; [| by right].
    intros [[? ?] | ?]; done. }
  split_and!; [done | done | done | done |].
  split.
  - intros Hempty. destruct roads as [| r roads]; [done |].
    assert (is_Some (record_roads ∅ (r :: roads) !! r.1.1.1)) as [l Hl].
    { apply Hkeys'. exists r. split; [apply list_elem_of_here | by left]. }
    rewrite Hempty, lookup_empty in Hl. done.
  - intros ->. done.
Qed.

(** X5. The counts [main] prints for a loaded graph: the number of
    directed entries is twice the number of records, so the number of
    undirected segments it derives is the number of records, and there are
    at most two nodes per record. *)
Theorem load_graph_counts (road_file : source_file) (g : AdjacencyList) :
  load_graph py_int py_float road_file = Ok g →
  ∃ lines roads,
    road_file = Some lines ∧ parsed_roads py_int py_float lines = Ok roads ∧
    directed_edge_count g = (2 * length roads)%nat ∧
    undirected_edges g = length roads ∧
    (node_count g <= 2 * length roads)%nat.
Proof.
  destruct road_file as [lines |]; [| done]. simpl.
  rewrite load_graph_loop_records.
  destruct (parsed_roads py_int py_float lines) as [roads | e] eqn:Hp;
    [| done].
  intros [= <-]. exists lines, roads.
  destruct (record_roads_counts roads ∅) as [Hd Hn].
  assert (directed_edge_count ∅ = 0%nat) as H0.
  { unfold directed_edge_count. by rewrite map_to_list_empty. }
  assert (node_count ∅ = 0%nat) as H0' by apply map_size_empty.
  split_and!; [done | done | lia | | lia].
  unfold undirected_edges. rewrite Hd, H0.
  replace (0 + 2 * length roads)%nat with (length roads * 2)%nat by lia.
  apply Nat.div_mul. lia.
Qed.

Lemma parse_place_line_name (raw_line : string) (place_id : Z)
    (place_name : string) :
  parse_place_line py_int raw_line = Ok (Some (place_id, place_name)) →
  place_name ≠ EmptyString.
Proof.
  unfold parse_place_line.
  destruct (Text.is_empty (Text.strip raw_line)); [done |].
  destruct (Text.split comma 1 (Text.strip raw_line))
    as [| p0 [| p1 [| p2 ps]]]; try done.
  destruct (Text.is_empty (Text.strip p0)); [done |].
  destruct (py_int (Text.strip p0)); [| done].
  destruct (Text.is_empty (Text.strip p1)) eqn:He; intros [= <- <-]; [done |].
  intros Heq. rewrite Heq in He. done.
Qed.

Lemma parsed_places_names (lines : list string) (records : list (Z * string)) :
  parsed_places py_int lines = Ok records →
  ∀ r, r ∈ records → r.2 ≠ EmptyString.
Proof.
  revert records. induction lines as [| raw_line rest IH]; intros records; simpl.
  - intros [= <-] r []%elem_of_nil.
  - destruct (parse_place_line py_int raw_line) as [[[i n] |] | e] eqn:Hl;
      [| apply IH | done].
    destruct (parsed_places py_int rest) as [rs | e]; [| done].
    intros [= <-] r [-> | Hr]%elem_of_cons.
    + by eapply parse_place_line_name.
    + by apply (IH rs).
Qed.

(** X6. The two mappings [load_places] returns fit together: an
    identifier that [name_to_id] yields is a key of [id_to_name], a name
    that [id_to_name] yields is a key of [name_to_id], every binding comes
    from a record of the source, and no name is the empty string. *)
Theorem load_places_consistent (place_file : source_file)
    (name_to_id : gmap string Z) (id_to_name : gmap Z string) :
  load_places py_int place_file = Ok (name_to_id, id_to_name) →
  ∃ lines records,
    place_file = Some lines ∧ parsed_places py_int lines = Ok records ∧
    (∀ name id, name_to_id !! name = Some id →
       (id, name) ∈ records ∧ is_Some (id_to_name !! id) ∧
       name ≠ EmptyString) ∧
    (∀ id name, id_to_name !! id = Some name →
       (id, name) ∈ records ∧ is_Some (name_to_id !! name) ∧
       name ≠ EmptyString).
Proof.
  destruct place_file as [lines |]; [| done]. simpl.
  rewrite load_places_loop_records.
  destruct (parsed_places py_int lines) as [records |] eqn:Hp; [| done].
  fold (record_places (∅, ∅) records).
  destruct (record_places_lookup records ∅ ∅) as [Hid Hname].
  intros [= Heq]. rewrite Heq in Hid, Hname. simpl in Hid, Hname.
  exists lines, records. split_and!; [done | done | |].
  - intros name id Hn. rewrite Hname, lookup_empty in Hn.
    apply first_with_Some in Hn.
    apply list_elem_of_fmap in Hn as ([i n] & [= -> ->] & Hin).
    split_and!; [done | | by apply (parsed_places_names lines records Hp _ Hin)].
    rewrite Hid, lookup_empty. by eapply first_with_is_Some.
  - intros id name Hi. rewrite Hid, lookup_empty in Hi.
    apply first_with_Some in Hi.
    split_and!; [done | | by apply (parsed_places_names lines records Hp _ Hi)].
    rewrite Hname, lookup_empty. apply first_with_is_Some with id.
    apply list_elem_of_fmap. by exists (id, name).
Qed.

End LoaderShape.

(** * Further properties of the engine *)

Section EngineLinks.

Variable g : AdjacencyList.
Variable s : Z.
Hypothesis Hnonneg : nonneg_weights g.

Local Abbreviation Inv := (Inv g s).
Local Abbreviation Mid := (Mid g s).
Local Abbreviation scanned := (scanned g).
Local Abbreviation Links := (Links g s).
Local Abbreviation Finished := (Finished g s).
Local Abbreviation Final := (Final g s).

Lemma Links_with_heap (st : Search) (h : list HeapEntry) :
  Links st → Links (with_heap st h).
Proof. intros [L1 L2]. by split. Qed.

Lemma relax_update_Links (u : Z) (d : Q) (settled : list Z) (done : list Edge)
    (st : Search) (v : Z) (w : Q) (desc : string) :
  Mid u d settled done st → Links st →
  (v, w, desc) ∈ neighbors g u →
  (∀ dv, dist st !! v = Some dv → d + w < dv) →
  Links {| dist := <[v := d + w]> (dist st);
           prev := <[v := u]> (prev st);
           heap := heappush (heap st) (d + w, v) |}.
Proof.
  intros [HI Hb Hc Hd] [L1 L2] He Hlt.
  assert (0 <= w) as Hw by apply (Hnonneg u _ He).
  assert (v ∉ u :: settled) as Hfresh.
  { intros Hin. destruct (Hb v Hin) as (dx & Hx & Hle).
    specialize (Hlt dx Hx). lra. }
  assert (v ≠ u) as Hvu.
  { intros ->. apply Hfresh, list_elem_of_here. }
  destruct Hc as (du & Hu & Hdu).
  assert (du <= d) as Hud.
  { destruct (Hb u (list_elem_of_here _ _)) as (du' & Hu' & ?). congruence. }
  split; simpl.
  - intros x dx. destruct (decide (v = x)) as [<- | Hne].
    + intros _ _. rewrite lookup_insert_eq. by eexists.
    + rewrite !lookup_insert_ne by done. apply L1.
  - intros x y. destruct (decide (v = x)) as [<- | Hne].
    + rewrite lookup_insert_eq. intros [= <-].
      exists du, (d + w), (v, w, desc).
      rewrite lookup_insert_ne by done. rewrite lookup_insert_eq.
      split_and!; [done | done | done | done |].
      unfold edge_miles. simpl. lra.
    + rewrite lookup_insert_ne by done. intros Hxy.
      destruct (L2 x y Hxy) as (dy & dx & e & Hy & Hx & He' & Hto & Heq).
      destruct (inv_prev HI x y Hxy) as (_ & _ & Hin & _).
      exists dy, dx, e. rewrite !lookup_insert_ne; [done | done |].
      intros <-. done.
Qed.

Lemma relax_Links (u : Z) (d : Q) (settled : list Z) (done : list Edge)
    (st : Search) (e : Edge) :
  Mid u d settled done st → Links st → e ∈ neighbors g u →
  Links (relax u d st e).
Proof.
  intros HM HL He. destruct e as [[v w] desc]. unfold relax.
  destruct (dist st !! v) as [dv |] eqn:Ev; simpl.
  - destruct (Qltb (d + w) dv) eqn:El; [| done].
    eapply relax_update_Links; [done | done | done |].
    intros dv' Hdv'. assert (dv' = dv) as -> by congruence.
    by apply Qltb_lt.
  - eapply relax_update_Links; [done | done | done |].
    intros dv' Hdv'. congruence.
Qed.

Lemma foldl_relax_Links (u : Z) (d : Q) (settled : list Z)
    (todo seen : list Edge) (st : Search) :
  (∀ e, e ∈ todo → e ∈ neighbors g u) →
  Mid u d settled seen st → Links st →
  Links (foldl (relax u d) st todo).
Proof.
  revert seen st. induction todo as [| e todo IH]; intros seen st Hall HM HL;
    [done |].
  assert (e ∈ neighbors g u) as He by (apply Hall, list_elem_of_here).
  simpl. apply (IH (seen ++ [e])).
  - intros e' He'. by apply Hall, list_elem_of_further.
  - by apply relax_Mid.
  - by eapply relax_Links.
Qed.

Lemma dijkstra_loop_finished (fuel : nat) (settled : list Z) (st : Search)
    (t : Z) :
  Inv settled (scanned settled) st → Links st →
  (length (heap st) + pending_work g settled < fuel)%nat →
  ∃ st', dijkstra_loop fuel g t st = Some (g, st') ∧ Finished t st'.
Proof.
  revert settled st.
  induction fuel as [| fuel IH]; intros settled st HI HL Hfuel; [lia |].
  simpl. destruct (heappop (heap st)) as [[[d u] h'] |] eqn:Hpop.
  - change {| dist := dist st; prev := prev st; heap := h' |}
      with (with_heap st h').
    pose proof (heappop_Some _ _ _ Hpop) as (Hm & _ & _ & _ & Hlen).
    destruct (gt_inf d (dist st !! u)) eqn:Hstale.
    + apply (IH settled);
        [eapply Inv_drop; eauto | by apply Links_with_heap | simpl; lia].
    + destruct (decide (u = t)) as [-> | Hut].
      * eexists. split; [done |]. exists settled, st.
        split_and!; [done | done | done | done |]. right. by exists d, h'.
      * destruct (decide (u ∈ settled)) as [Hin | Hout].
        -- rewrite foldl_relax_noop.
           ++ apply (IH settled);
                [eapply Inv_drop; eauto | by apply Links_with_heap | simpl; lia].
           ++ intros e He. simpl.
              destruct (inv_relaxed HI u e (conj Hin He))
                as (dx & dv & Hdx & Hdv & Hrel).
              destruct (inv_heap HI d u Hm) as (du & Hdu & Hle).
              assert (du = dx) as -> by congruence.
              exists dv. split; [done | lra].
        -- pose proof (Inv_pop_fresh g s Hnonneg _ _ _ _ _ HI Hpop Hstale Hout)
             as HM.
           destruct (foldl_relax_Mid g s Hnonneg u d settled (neighbors g u) []
                       (with_heap st h') ltac:(done) HM) as [HM' Hlen'].
           pose proof (foldl_relax_Links u d settled (neighbors g u) []
                         (with_heap st h') ltac:(done) HM
                         (Links_with_heap st h' HL)) as HL'.
           apply (IH (u :: settled));
             [exact (Mid_finish g s u d _ _ HM') | exact HL' |].
           pose proof (pending_work_settle g u settled Hout).
           simpl in Hlen'. unfold neighbors in *. lia.
  - apply heappop_None in Hpop. eexists. split; [done |].
    exists settled, st. split_and!; [done | done | done | done | by left].
Qed.

Lemma Links_initial : Links (initial s).
Proof.
  split; simpl.
  - intros v d [<- _]%lookup_singleton_Some Hne. done.
  - intros v u. by rewrite lookup_empty.
Qed.

(** A settled node has its least distance. *)
Lemma Inv_settled_least (settled : list Z) (st : Search) (x : Z) (dx : Q)
    (p : list Edge) :
  Inv settled (scanned settled) st → x ∈ settled →
  dist st !! x = Some dx → is_route g s p x → dx <= route_cost p.
Proof.
  intros HI Hx Hdx Hp.
  destruct (frontier g s Hnonneg settled st p x HI Hp)
    as (y & dy & Hy & Hle & [-> | Hns]).
  - assert (dy = dx) as -> by congruence. done.
  - pose proof (inv_pending HI y dy Hy Hns) as Hin.
    pose proof (inv_order HI x dx dy y Hx Hdx Hin). lra.
Qed.

Lemma Finished_Final (t : Z) (st' : Search) :
  Finished t st' → ∃ settled, Final t settled st'.
Proof.
  intros (settled & st0 & HI & [L1 L2] & Hd & Hp & Hexit).
  assert (∀ x e, relaxed st0 x e → relaxed st' x e) as Hrel.
  { intros x e (dx & dv & ? & ? & ?). exists dx, dv. by rewrite Hd. }
  exists settled. split.
  - rewrite Hd. apply (inv_source HI).
  - rewrite Hd. apply (inv_route HI).
  - rewrite Hd, Hp. apply (inv_prev HI).
  - intros x dx p Hx. rewrite Hd. by apply (Inv_settled_least settled).
  - intros x e Hx He. apply Hrel, (inv_relaxed HI x e (conj Hx He)).
  - split; rewrite Hd, Hp; done.
  - rewrite Hd. destruct Hexit as [Hnil | (d & h' & Hpop & Hfresh)].
    + left. intros v p Hroute.
      destruct (frontier g s Hnonneg settled st0 p v HI Hroute)
        as (y & dy & Hy & Hle & [-> | Hns]); [by exists dy |].
      pose proof (inv_pending HI y dy Hy Hns) as Hin.
      rewrite Hnil in Hin. by apply elem_of_nil in Hin.
    + right. pose proof (Post_break g s Hnonneg _ _ _ _ _ HI Hpop Hfresh)
        as [_ _ Hleast _].
      apply heappop_Some in Hpop as (Hm & _).
      destruct (inv_heap HI d t Hm) as (dt & Hdt & _).
      exists dt. split; [done |]. intros p Hroute.
      by apply (Hleast dt p).
Qed.

Lemma dijkstra_loop_final (fuel : nat) (t : Z) :
  (enough_fuel g <= fuel)%nat →
  ∃ st settled,
    dijkstra_loop fuel g t (initial s) = Some (g, st) ∧ Final t settled st.
Proof.
  intros Hfuel.
  destruct (dijkstra_loop_finished fuel [] (initial s) t
              (Inv_initial g s) Links_initial) as (st & Hrun & Hfin).
  { unfold enough_fuel in Hfuel. simpl. lia. }
  destruct (Finished_Final t st Hfin) as (settled & HF).
  by exists st, settled.
Qed.

End EngineLinks.

(** Every run that returns, returns the maps of one finished search. *)
Lemma dijkstra_final (g : AdjacencyList) (s t : Z) :
  nonneg_weights g →
  ∃ st settled, Final g s t settled st ∧
    (∀ fuel, (enough_fuel g <= fuel)%nat →
       dijkstra fuel g s t = Some (g, (dist st, prev st))) ∧
    (∀ fuel g' r, dijkstra fuel g s t = Some (g', r) →
       g' = g ∧ r = (dist st, prev st)).
Proof.
  intros Hg.
  destruct (dijkstra_loop_final g s Hg (enough_fuel g) t ltac:(lia))
    as (st & settled & Hrun & HF).
  exists st, settled. split_and!; [done | |].
  - intros fuel Hfuel. apply dijkstra_unfold. exists st. split; [| done].
    by apply dijkstra_loop_more_fuel with (enough_fuel g).
  - intros fuel g' r (st' & Hrun' & ->)%dijkstra_unfold.
    pose proof (dijkstra_loop_graph _ _ _ _ _ _ Hrun') as ->.
    apply dijkstra_loop_more_fuel with (m := (fuel `max` enough_fuel g)%nat)
      in Hrun; [| lia].
    apply dijkstra_loop_more_fuel with (m := (fuel `max` enough_fuel g)%nat)
      in Hrun'; [| lia].
    split; [done |]. congruence.
Qed.

Lemma pending_work_nil (g : AdjacencyList) :
  pending_work g [] = directed_edge_count g.
Proof.
  unfold pending_work, directed_edge_count.
  induction (map_to_list g) as [| kl l IH]; [done |].
  cbn [sum_list_with]. rewrite IH.
  by rewrite decide_False by apply not_elem_of_nil.
Qed.





(** X11. On a road graph the loop of the engine ends within one pass per
    directed entry of the graph, plus two: that much fuel always gives a
    result. *)
Theorem dijkstra_iterations (g : AdjacencyList) (s t : Z) (fuel : nat) :
  nonneg_weights g →
  (2 + directed_edge_count g <= fuel)%nat →
  ∃ dist prev, dijkstra fuel g s t = Some (g, (dist, prev)).
Proof.
  intros Hg Hfuel.
  destruct (dijkstra_final g s t Hg) as (st & settled & _ & Hrun & _).
  exists (dist st), (prev st). apply Hrun.
  unfold enough_fuel. rewrite pending_work_nil. lia.
Qed.


(** * Further properties of the reconstructor *)

Lemma chain_snoc (R : Z → Z → Prop) (l : list Z) (y : Z) :
  chain R l → (∀ x, last l = Some x → R x y) → chain R (l ++ [y]).
Proof.
  induction l as [| a l IH]; intros Hc Hl; [done |].
  destruct Hc as [Ha Hc]. destruct l as [| b l].
  - simpl. split; [by apply Hl | done].
  - split; [done |]. apply IH; [done |]. intros x Hx. by apply Hl.
Qed.

Lemma chain_reverse (R : Z → Z → Prop) (l : list Z) :
  chain R l → chain (flip R) (reverse l).
Proof.
  induction l as [| a l IH]; intros Hc; [done |].
  destruct Hc as [Ha Hc]. rewrite reverse_cons. apply chain_snoc; [by apply IH |].
  intros x. rewrite last_reverse. destruct l as [| b l]; [done |].
  by intros [= <-].
Qed.

Lemma walk_back_shape (prev : gmap Z Z) (source : Z) (m : nat) :
  ∀ current path full,
    walk_back m prev source current path = Some (Some full) →
    last path = Some current →
    chain (λ a b, prev !! a = Some b) path →
    ∃ more, full = reverse (path ++ more) ∧
      chain (λ a b, prev !! a = Some b) (path ++ more) ∧
      last (path ++ more) = Some source.
Proof.
  induction m as [| m IH]; intros current path full Hw Hlast Hc; [done |].
  simpl in Hw. destruct (decide (current = source)) as [-> | Hne].
  - injection Hw as <-. exists []. by rewrite app_nil_r.
  - destruct (prev !! current) as [c' |] eqn:Hp; [| done].
    destruct (IH c' (path ++ [c']) full Hw) as (more & -> & Hc' & Hl').
    + by rewrite last_snoc.
    + apply chain_snoc; [done |]. intros x Hx. congruence.
    + exists (c' :: more). by rewrite <- app_assoc in *.
Qed.



Lemma reconstruct_path_linked (prev : gmap Z Z) (source target : Z)
    (fuel : nat) (path : list Z) :
  reconstruct_path fuel prev source target = Some (Some path) →
  head path = Some source ∧ last path = Some target ∧ linked_by prev path ∧
  chain (λ a b, prev !! a = Some b) (reverse path).
Proof.
  unfold reconstruct_path.
  destruct (decide (source = target)) as [-> | Hne].
  { intros [= <-]. by repeat split. }
  destruct (decide (is_Some (prev !! target))); [| done].
  intros Hw.
  destruct (walk_back_shape prev source fuel target [target] path Hw)
    as (more & -> & Hc & Hl); [done | done |].
  rewrite head_reverse, last_reverse, reverse_involutive.
  split_and!; [done | done | | done].
  apply chain_reverse in Hc. exact Hc.
Qed.

(** X12. Whatever the predecessor map, a path the reconstructor returns
    starts at the source, ends at the target, and each of its nodes is the
    recorded predecessor of the next one. *)
Theorem reconstruct_path_shape (prev : gmap Z Z) (source target : Z)
    (fuel : nat) (path : list Z) :
  reconstruct_path fuel prev source target = Some (Some path) →
  head path = Some source ∧ last path = Some target ∧ linked_by prev path.
Proof.
  intros Hr.
  by destruct (reconstruct_path_linked prev source target fuel path Hr)
    as (? & ? & ? & _).
Qed.

Lemma reconstruct_path_shape_witness :
  reconstruct_path 10 sample_run.2 1 3 = Some (Some [1; 2; 3]%Z) ∧
  head [1; 2; 3]%Z = Some 1%Z ∧ last [1; 2; 3]%Z = Some 3%Z ∧
  linked_by sample_run.2 [1; 2; 3]%Z.
Proof.
  assert (reconstruct_path 10 sample_run.2 1 3 = Some (Some [1; 2; 3]%Z)) as Hr
    by (vm_compute; reflexivity).
  split; [exact Hr |].
  exact (reconstruct_path_shape sample_run.2 1 3 10 [1; 2; 3]%Z Hr).
Defined.



Section PathOfSearch.

Variable g : AdjacencyList.
Variable s t : Z.
Variable settled : list Z.
Variable st : Search.
Hypothesis HF : Final g s t settled st.





End PathOfSearch.


(** * Further properties of the edge lookup and the renderer *)

Lemma find_edge_loop_None (l : list Edge) (b : Z) :
  find_edge_loop l b = None ↔ ∀ e, e ∈ l → edge_to e ≠ b.
Proof.
  induction l as [| [[v w] d] l IH]; simpl.
  - split; [by intros _ e ?%elem_of_nil | done].
  - destruct (decide (v = b)) as [-> | Hne].
    + split; [done |]. intros Hall. by destruct (Hall _ (list_elem_of_here _ _)).
    + rewrite IH. split.
      * intros Hall e [-> | He]%elem_of_cons; [done | by apply Hall].
      * intros Hall e He. by apply Hall, list_elem_of_further.
Qed.

Lemma find_edge_loop_Some (l : list Edge) (b : Z) (m : Q) (d : string) :
  find_edge_loop l b = Some (m, d) → (b, m, d) ∈ l.
Proof.
  induction l as [| [[v w] d'] l IH]; simpl; [done |].
  destruct (decide (v = b)) as [-> | Hne].
  - intros [= -> ->]. apply list_elem_of_here.
  - intros Hf. by apply list_elem_of_further, IH.
Qed.

Lemma find_edge_is_Some (g : AdjacencyList) (a b : Z) :
  is_Some (find_edge g a b) ↔ linked g a b.
Proof.
  unfold find_edge. fold (neighbors g a). split.
  - intros [[m d] Hf]. apply find_edge_loop_Some in Hf.
    by exists (b, m, d).
  - intros (e & He & Hto).
    destruct (find_edge_loop (neighbors g a) b) eqn:Hf; [by eexists |].
    rewrite find_edge_loop_None in Hf. by destruct (Hf e He).
Qed.

(** X14. [find_edge] returns [None] exactly when no entry of the
    from-node's list leads to the to-node, in particular when the from-node
    is not a key of the graph; what it returns otherwise is the distance
    and the description of an entry of that list. *)
Theorem find_edge_found (g : AdjacencyList) (a b : Z) :
  (find_edge g a b = None ↔ ¬ linked g a b) ∧
  (g !! a = None → find_edge g a b = None) ∧
  (∀ m d, find_edge g a b = Some (m, d) → (b, m, d) ∈ neighbors g a).
Proof.
  split_and!.
  - rewrite <- find_edge_is_Some. destruct (find_edge g a b) as [md |].
    + split; [done |]. intros Hn. destruct Hn. by eexists.
    + split; [| done]. intros _ [? ?]. done.
  - intros Ha. unfold find_edge, dict_get. by rewrite Ha.
  - intros m d. apply find_edge_loop_Some.
Qed.

Lemma find_edge_head (g : AdjacencyList) (a b : Z) :
  find_edge g a b = head (roads_between g a b).
Proof.
  unfold find_edge, roads_between. fold (neighbors g a).
  induction (neighbors g a) as [| [[v w] d] l IH]; simpl; [done |].
  rewrite filter_cons. unfold edge_to at 1. simpl.
  destruct (decide (v = b)); [done | apply IH].
Qed.

Lemma roads_between_record_road (r : Road) (g : AdjacencyList) (a b : Z) :
  roads_between (record_road r g) a b
  = roads_between g a b
    ++ (if decide (r.1.1.1 = a ∧ r.1.1.2 = b) then [(r.1.2, r.2)] else [])
    ++ (if decide (r.1.1.2 = a ∧ r.1.1.1 = b) then [(r.1.2, r.2)] else []).
Proof.
  unfold roads_between. rewrite neighbors_record_road.
  destruct r as [[[x y] m] c]. simpl.
  rewrite !filter_app, !fmap_app. f_equal.
  destruct (decide (x = a)) as [-> | Hx], (decide (y = a)) as [-> | Hy];
    rewrite ?filter_cons, ?filter_nil; unfold edge_to; simpl;
    repeat (destruct (decide _)); simpl; try done; intuition congruence.
Qed.

Lemma record_roads_between (roads : list Road) (g : AdjacencyList) :
  (∀ a b, roads_between g a b = roads_between g b a) →
  ∀ a b, roads_between (record_roads g roads) a b
         = roads_between (record_roads g roads) b a.
Proof.
  revert g. induction roads as [| r roads IH]; intros g Hg; [done |].
  change (record_roads g (r :: roads))
    with (record_roads (record_road r g) roads).
  apply IH. intros a b. rewrite !roads_between_record_road, Hg.
  f_equal. repeat (destruct (decide _)); simpl; try done; intuition congruence.
Qed.

(** X15. In a loaded graph the lookup does not depend on the direction:
    the entries between two nodes carry the same distances and
    descriptions, in the same order, in both lists, so [find_edge] returns
    the same for (a, b) and for (b, a). *)
Theorem find_edge_symmetric (py_int : string → option Z)
    (py_float : string → option Q) (road_file : source_file)
    (g : AdjacencyList) :
  load_graph py_int py_float road_file = Ok g →
  ∀ a b, roads_between g a b = roads_between g b a ∧
         find_edge g a b = find_edge g b a.
Proof.
  destruct road_file as [lines |]; [| done]. simpl.
  rewrite load_graph_loop_records.
  destruct (parsed_roads py_int py_float lines) as [roads | e]; [| done].
  intros [= <-] a b.
  assert (roads_between (record_roads ∅ roads) a b
          = roads_between (record_roads ∅ roads) b a) as Heq.
  { apply record_roads_between. intros x y. unfold roads_between.
    by rewrite !neighbors_empty. }
  split; [done |]. by rewrite !find_edge_head, Heq.
Qed.

Lemma find_edge_symmetric_witness :
  load_graph Decimal.int Decimal.float (Some parallel_roads) = Ok parallel_graph ∧
  ∀ a b, roads_between parallel_graph a b = roads_between parallel_graph b a ∧
         find_edge parallel_graph a b = find_edge parallel_graph b a.
Proof.
  assert (load_graph Decimal.int Decimal.float (Some parallel_roads)
          = Ok parallel_graph) as Hload by (vm_compute; reflexivity).
  split; [exact Hload |].
  exact (find_edge_symmetric Decimal.int Decimal.float (Some parallel_roads)
           parallel_graph Hload).
Defined.

Lemma foldl_Qplus (acc : Q) (l : list Q) :
  foldl Qplus acc l == acc + foldl Qplus 0 l.
Proof.
  revert acc. induction l as [| x l IH]; intros acc; simpl; [lra |].
  rewrite (IH (acc + x)), (IH (0 + x)). lra.
Qed.

Lemma first_entry_to_linked (g : AdjacencyList) (a b : Z) :
  is_Some (first_entry_to g a b) ↔ linked g a b.
Proof.
  rewrite <- find_edge_is_Some, find_edge_first_entry.
  by rewrite fmap_is_Some.
Qed.

Lemma matched_segments_cons (g : AdjacencyList) (a b : Z) (rest : list Z) :
  matched_segments g (a :: b :: rest)
  = match first_entry_to g a b with
    | Some e => edge_miles e :: matched_segments g (b :: rest)
    | None => matched_segments g (b :: rest)
    end.
Proof. done. Qed.

Lemma matched_segments_nonneg (g : AdjacencyList) (path : list Z) :
  nonneg_weights g → 0 <= sum_miles (matched_segments g path).
Proof.
  intros Hg. unfold sum_miles.
  induction path as [| a path IH]; [simpl; lra |].
  destruct path as [| b path]; [simpl; lra |].
  rewrite matched_segments_cons.
  destruct (first_entry_to g a b) as [e |] eqn:He; [| done].
  apply find_some in He as [He _]. apply list_elem_of_In in He.
  pose proof (Hg a e He). cbn [foldl]. rewrite foldl_Qplus. lra.
Qed.

Lemma render_loop_lines (g : AdjacencyList) (id_to_name : gmap Z string)
    (rest pre : list Z) (total : Q) (out : list Printed) :
  ∃ out',
    render_loop g id_to_name (pre ++ rest)
      (seq (length pre) (length rest - 1)) total out
    = Some (foldl Qplus total (matched_segments g rest), out ++ out') ∧
    length out' = (length rest - 1)%nat ∧
    (Forall (λ p, is_step_line p = true) out' ↔ chain (linked g) rest).
Proof.
  revert pre total out.
  induction rest as [| a rest IH]; intros pre total out.
  { exists []. simpl. by rewrite !app_nil_r. }
  destruct rest as [| b rest].
  { exists []. simpl. by rewrite !app_nil_r. }
  replace (length (a :: b :: rest) - 1)%nat with (S (length rest)) by (simpl; lia).
  cbn [seq render_loop].
  assert ((pre ++ a :: b :: rest) !! length pre = Some a) as ->.
  { by rewrite list_lookup_middle. }
  assert ((pre ++ a :: b :: rest) !! (length pre + 1)%nat = Some b) as ->.
  { rewrite (cons_middle a pre), app_assoc.
    apply list_lookup_middle. rewrite length_app. simpl. lia. }
  specialize (IH (pre ++ [a])).
  rewrite <- app_assoc, length_app in IH. simpl in IH.
  replace (length pre + 1)%nat with (S (length pre)) in * by lia.
  replace (length rest - 0)%nat with (length rest) in IH by lia.
  cbn [matched_segments chain].
  pose proof (first_entry_to_linked g a b) as Hlinked.
  rewrite find_edge_first_entry.
  destruct (first_entry_to g a b) as [e |]; simpl.
  - destruct (IH (total + edge_miles e)
                (out ++ [StepLine (S (length pre)) a
                           (dict_get id_to_name a "null"%string) b
                           (dict_get id_to_name b "null"%string)
                           (edge_description e) (edge_miles e)]))
      as (out' & -> & Hlen & Hall).
    eexists (_ :: out'). rewrite <- app_assoc. split; [done |].
    split; [simpl; lia |]. rewrite Forall_cons, Hall. simpl.
    split; [intros [_ ?]; split; [apply Hlinked; by eexists | done]
           | intros [_ ?]; done].
  - destruct (IH total (out ++ [Warning a b])) as (out' & -> & Hlen & Hall).
    eexists (_ :: out'). rewrite <- app_assoc. split; [done |].
    split; [simpl; lia |]. rewrite Forall_cons. simpl.
    split; [by intros [? _] |]. intros [Hab _]. apply Hlinked in Hab.
    by destruct Hab.
Qed.

(** X16. The renderer never fails on an index.  It prints one line per
    step of the path, a warning exactly for the steps without an entry in
    the graph, so all lines are step lines exactly when every node of the
    path is linked to the next one; on a road graph the total is not
    negative. *)
Theorem render_lines (g : AdjacencyList) (id_to_name : gmap Z string)
    (path : list Z) :
  ∃ total out,
    render g id_to_name path = Some (total, out) ∧
    length out = (length path - 1)%nat ∧
    (Forall (λ p, is_step_line p = true) out ↔ chain (linked g) path) ∧
    (nonneg_weights g → 0 <= total).
Proof.
  destruct (render_loop_lines g id_to_name path [] 0 [])
    as (out & Hr & Hlen & Hall).
  exists (sum_miles (matched_segments g path)), out.
  split_and!; [exact Hr | done | done |].
  intros Hg. by apply matched_segments_nonneg.
Qed.

(** * The query: engine, reconstructor and renderer together *)



Section QueryOfSearch.

Variable g : AdjacencyList.
Variable s t : Z.
Variable settled : list Z.
Variable st : Search.
Hypothesis HF : Final g s t settled st.


End QueryOfSearch.




(** * Further properties of [main] and of the name resolver *)

Section MainFacts.

Variable py_int : string → option Z.
Variable py_float : string → option Q.





(** X19. On the names [load_places] returns, [get_place_id] raises
    [ValueError] for a blank line, [KeyError] for a name no record carries,
    and otherwise returns the identifier of the first record whose name is
    the line typed, trimmed; that identifier has a name in
    [id_to_name]. *)
Theorem get_place_id_loaded (place_file : source_file)
    (name_to_id : gmap string Z) (id_to_name : gmap Z string)
    (typed : string) :
  load_places py_int place_file = Ok (name_to_id, id_to_name) →
  ∃ lines records,
    place_file = Some lines ∧ parsed_places py_int lines = Ok records ∧
    get_place_id name_to_id typed
    = (if Text.is_empty (Text.strip typed) then inr EmptyNameValueError
       else match first_with (Text.strip typed) (prod_swap <$> records) with
            | Some place_id => inl place_id
            | None => inr NameKeyError
            end) ∧
    ∀ place_id, get_place_id name_to_id typed = inl place_id →
      (place_id, Text.strip typed) ∈ records ∧
      is_Some (id_to_name !! place_id).
Proof.
  destruct place_file as [lines |]; [| done]. simpl.
  rewrite load_places_loop_records.
  destruct (parsed_places py_int lines) as [records |] eqn:Hp; [| done].
  fold (record_places (∅, ∅) records).
  destruct (record_places_lookup records ∅ ∅) as [Hid Hname].
  intros [= Heq]. rewrite Heq in Hid, Hname. simpl in Hid, Hname.
  exists lines, records.
  assert (get_place_id name_to_id typed
          = (if Text.is_empty (Text.strip typed) then inr EmptyNameValueError
             else match first_with (Text.strip typed) (prod_swap <$> records)
                  with
                  | Some place_id => inl place_id
                  | None => inr NameKeyError
                  end)) as Hget.
  { unfold get_place_id. by rewrite Hname, lookup_empty. }
  split_and!; [done | done | done |].
  intros place_id. rewrite Hget.
  destruct (Text.is_empty (Text.strip typed)); [done |].
  destruct (first_with (Text.strip typed) (prod_swap <$> records))
    as [i |] eqn:Hf; [| done].
  intros [= ->]. apply first_with_Some in Hf.
  apply list_elem_of_fmap in Hf as ([i n] & [= Hn ->] & Hin).
  rewrite Hn. split; [done |].
  rewrite Hid, lookup_empty. by eapply first_with_is_Some.
Qed.

End MainFacts.

(** * The further properties on the sample sources *)

Example example_run :
  main 10 Decimal.int Decimal.float example_places example_roads
    "Lexington" "Columbia"
  = Some (Itinerary 112.5
            [StepLine 1 1 "Lexington" 2 "Columbia" "Route128" 112.5]).
Proof. vm_compute. reflexivity. Qed.

Example example_run_same_place :
  main 10 Decimal.int Decimal.float example_places example_roads
    " Columbia " "Columbia"
  = Some (Itinerary 0 []).
Proof. vm_compute. reflexivity. Qed.

Example example_run_unknown_name :
  main 10 Decimal.int Decimal.float example_places example_roads
    "lexington" "Columbia"
  = Some (Unresolved NameKeyError).
Proof. vm_compute. reflexivity. Qed.

(** With two roads between the same places, the first one listed is the
    one rendered, whichever the engine used. *)
Example two_roads_total :
  ∃ dist prev total out,
    dijkstra 10 two_roads_graph 1 2 = Some (two_roads_graph, (dist, prev)) ∧
    dist !! 2%Z = Some 3 ∧
    answer_query 10 two_roads_graph ∅ 1 2 = Some (Itinerary total out) ∧
    total == 10.
Proof.
  eexists _, _, _, _. split_and!; vm_compute; reflexivity.
Qed.

Lemma sample_graph_nonneg : nonneg_weights sample_graph.
Proof.
  apply (load_graph_nonneg Decimal.int Decimal.float sample_roads).
  vm_compute; reflexivity.
Defined.



Lemma load_graph_keys_witness :
  load_graph Decimal.int Decimal.float (Some parallel_roads) = Ok parallel_graph ∧
  ∃ lines roads,
    Some parallel_roads = Some lines ∧
    parsed_roads Decimal.int Decimal.float lines = Ok roads ∧
    (∀ u, is_Some (parallel_graph !! u) ↔
          ∃ r, r ∈ roads ∧ (r.1.1.1 = u ∨ r.1.1.2 = u)) ∧
    (∀ u l, parallel_graph !! u = Some l → l ≠ []) ∧
    (parallel_graph = ∅ ↔ roads = []).
Proof.
  assert (load_graph Decimal.int Decimal.float (Some parallel_roads)
          = Ok parallel_graph) as Hload by (vm_compute; reflexivity).
  split; [exact Hload |].
  exact (load_graph_keys Decimal.int Decimal.float (Some parallel_roads)
           parallel_graph Hload).
Defined.

Lemma load_graph_counts_witness :
  load_graph Decimal.int Decimal.float (Some parallel_roads) = Ok parallel_graph ∧
  ∃ lines roads,
    Some parallel_roads = Some lines ∧
    parsed_roads Decimal.int Decimal.float lines = Ok roads ∧
    directed_edge_count parallel_graph = (2 * length roads)%nat ∧
    undirected_edges parallel_graph = length roads ∧
    (node_count parallel_graph <= 2 * length roads)%nat.
Proof.
  assert (load_graph Decimal.int Decimal.float (Some parallel_roads)
          = Ok parallel_graph) as Hload by (vm_compute; reflexivity).
  split; [exact Hload |].
  exact (load_graph_counts Decimal.int Decimal.float (Some parallel_roads)
           parallel_graph Hload).
Defined.

Lemma load_places_consistent_witness :
  load_places Decimal.int (Some sample_places)
  = Ok (sample_place_maps.1, sample_place_maps.2) ∧
  ∃ lines records,
    Some sample_places = Some lines ∧
    parsed_places Decimal.int lines = Ok records ∧
    (∀ name id, sample_place_maps.1 !! name = Some id →
       (id, name) ∈ records ∧ is_Some (sample_place_maps.2 !! id) ∧
       name ≠ EmptyString) ∧
    (∀ id name, sample_place_maps.2 !! id = Some name →
       (id, name) ∈ records ∧ is_Some (sample_place_maps.1 !! name) ∧
       name ≠ EmptyString).
Proof.
  assert (load_places Decimal.int (Some sample_places)
          = Ok (sample_place_maps.1, sample_place_maps.2)) as Hload
    by (vm_compute; reflexivity).
  split; [exact Hload |].
  exact (load_places_consistent Decimal.int (Some sample_places) _ _ Hload).
Defined.





Lemma dijkstra_iterations_witness :
  (nonneg_weights sample_graph ∧
   (2 + directed_edge_count sample_graph <= 10)%nat) ∧
  ∃ dist prev, dijkstra 10 sample_graph 1 3 = Some (sample_graph, (dist, prev)).
Proof.
  assert ((2 + directed_edge_count sample_graph <= 10)%nat) as Hfuel
    by (vm_compute; lia).
  split; [split; [exact sample_graph_nonneg | exact Hfuel] |].
  exact (dijkstra_iterations sample_graph 1 3 10 sample_graph_nonneg Hfuel).
Defined.


Lemma get_place_id_loaded_witness :
  load_places Decimal.int (Some sample_places)
  = Ok (sample_place_maps.1, sample_place_maps.2) ∧
  ∃ lines records,
    Some sample_places = Some lines ∧
    parsed_places Decimal.int lines = Ok records ∧
    get_place_id sample_place_maps.1 " Columbia "
    = (if Text.is_empty (Text.strip " Columbia ")
       then inr EmptyNameValueError
       else match first_with (Text.strip " Columbia ") (prod_swap <$> records)
            with
            | Some place_id => inl place_id
            | None => inr NameKeyError
            end) ∧
    ∀ place_id, get_place_id sample_place_maps.1 " Columbia " = inl place_id →
      (place_id, Text.strip " Columbia ") ∈ records ∧
      is_Some (sample_place_maps.2 !! place_id).
Proof.
  assert (load_places Decimal.int (Some sample_places)
          = Ok (sample_place_maps.1, sample_place_maps.2)) as Hload
    by (vm_compute; reflexivity).
  split; [exact Hload |].
  exact (get_place_id_loaded Decimal.int (Some sample_places) _ _
           " Columbia " Hload).
Defined.


